(** * One Lloyd iteration of mlpack's [NaiveKMeans]

    A shallow embedding of [NaiveKMeans::Iterate]
    (src/mlpack/methods/kmeans/naive_kmeans_impl.hpp) and the properties of
    it that the specification of the kernel states.

    Conventions of the embedding:
    - [double] is Rocq's primitive binary64 [float]; comparisons and
      arithmetic are the IEEE ones ([<?], [+], [*], [/], [sqrt]).
    - [size_t] values that index or count points, clusters and threads are
      [nat]: each is bounded by the number of points or clusters held in
      memory, so none of them wraps.  The diagnostic counter is the only
      [size_t] that can wrap; it is an [N] reduced modulo [2^64].
    - An Armadillo matrix is its row count and the list of its columns
      (column-major, as Armadillo stores it).  Matrices handed to the
      kernel are well formed: every column has [n_rows] entries, and the
      centroids have as many rows as the dataset, so that no Armadillo
      operation below is given operands of different sizes.  [MatType] is
      the dense matrix.
    - Armadillo's [dot] and [norm(.,2)] are taken at their documented
      meaning, the inner product and the square root of the sum of the
      squares, summed in index order in binary64.
    - Integer division by zero and an out-of-range column index do not
      return: the run ends in a [fault].
    - The OpenMP team of the main region has exactly the requested number
      of threads; the order in which they enter the critical section is the
      [schedule] argument, a permutation of the thread ids.
    - The [+] reduction of line 117 is carried out as OpenMP leaves it
      open: the static schedule gives every thread of the team of that loop
      one range of consecutive clusters, whose terms it adds in order onto a
      private copy of [cNorm] that starts at zero, and the private copies
      and the value [cNorm] had before the loop are added up in an order
      and a grouping that the runtime chooses.  That choice is the
      [reduction] argument. *)

From Stdlib Require Import ZArith NArith QArith Floats Lia Permutation.
From stdpp Require Import base list.

(** ** Faults and the error monad *)

Inductive fault : Set :=
  | DivisionByZero
  | IndexOutOfBounds.

Inductive result (A : Type) : Type :=
  | Ok (a : A)
  | Fault (f : fault).
Arguments Ok {A} a.
Arguments Fault {A} f.

#[global] Instance result_ret : MRet result := fun A a => Ok a.
#[global] Instance result_bind : MBind result := fun A B k m =>
  match m with
  | Ok a => k a
  | Fault f => Fault f
  end.

(** ** Vectors and matrices of doubles *)

Abbreviation vec := (list float).

Record mat : Type := Mat { n_rows : nat; columns : list vec }.

Definition n_cols (m : mat) : nat := length (columns m).

(** [m.col(j)] for an index the caller keeps in range. *)
Definition col (m : mat) (j : nat) : vec := nth j (columns m) [].

(** [std::numeric_limits<double>::max()] *)
Definition DBL_MAX : float := 0x1.fffffffffffffp+1023%float.

(** [arma::dot(a, b)] *)
Definition dot (a b : vec) : float :=
  fold_left (fun acc p => (acc + p.1 * p.2)%float) (zip a b) 0%float.

(** [arma::norm(v, 2)] *)
Definition norm2 (v : vec) : float := PrimFloat.sqrt (dot v v).

(** [a += b], [a - b] and [a /= s] on columns. *)
Definition vadd (a b : vec) : vec := zip_with PrimFloat.add a b.
Definition vsub (a b : vec) : vec := zip_with PrimFloat.sub a b.
Definition vdiv (a : vec) (s : float) : vec := map (fun v => (v / s)%float) a.

(** The conversion of a count to [double] that [col /= counts(j)] performs:
    the nearest binary64 value, ties to even. *)
Definition double_of_size (n : nat) : float :=
  SF2Prim (binary_normalize prec emax (Z.of_nat n) 0 false).

(** [zeros(dims, clusters)] and [zeros(clusters)] *)
Definition zeros_mat (dims clusters : nat) : list vec :=
  replicate clusters (replicate dims 0%float).
Definition zeros_counts (clusters : nat) : list nat := replicate clusters 0.

(** ** The kernel object *)

Record NaiveKMeans : Type := {
  dataset : mat;
  distanceCalculations : N
}.

(** The constructor: the counter starts at zero. *)
Definition NaiveKMeans_new (data : mat) : NaiveKMeans :=
  {| dataset := data; distanceCalculations := 0 |}.

(** ** Iterate, phase by phase *)

(** Lines 46-51: the squared norm of every centroid. *)
Definition centroidNorms_of (centroids : mat) : list float :=
  map (fun j => dot (col centroids j) (col centroids j))
      (seq 0 (n_cols centroids)).

(** Lines 54-56. [maxThreads] is what [omp_get_max_threads()] returns. *)
Definition minVectorsPerThread : nat := 100.

Definition numThreads_of (maxThreads : Z) : nat :=
  Z.to_nat (Z.max 1 maxThreads).

Definition effectiveThreads_of (maxThreads : Z) (points : nat) : nat :=
  Nat.min (numThreads_of maxThreads) (points / minVectorsPerThread).

(** Unsigned integer division; a zero divisor is undefined behaviour. *)
Definition size_div (a b : nat) : result nat :=
  if decide (b = 0) then Fault DivisionByZero else Ok (a / b).

(** Lines 65-66. *)
Definition segmentStart (threadId nominalSegmentSize : nat) : nat :=
  threadId * nominalSegmentSize.

Definition segmentEnd
    (threadId effectiveThreads nominalSegmentSize points : nat) : nat :=
  if decide (threadId = effectiveThreads - 1) then points
  else (threadId + 1) * nominalSegmentSize.

(** Lines 80-90: one turn of the loop over the centroids.  The state is
    [(minDistance, closestCluster)]. *)
Definition squaredDistance (dataNorm centroidNorm dotProduct : float) : float :=
  (dataNorm + centroidNorm - 2 * dotProduct)%float.

Definition distTo
    (centroids : mat) (centroidNorms : list float)
    (dataPoint : vec) (dataNorm : float) (j : nat) : float :=
  let centroid := col centroids j in
  let dotProduct := dot dataPoint centroid in
  squaredDistance dataNorm (nth j centroidNorms 0%float) dotProduct.

Definition closest_step
    (centroids : mat) (centroidNorms : list float)
    (dataPoint : vec) (dataNorm : float)
    (st : float * nat) (j : nat) : float * nat :=
  let dist := distTo centroids centroidNorms dataPoint dataNorm j in
  if (dist <? st.1)%float then (dist, j) else st.

(** Lines 70-91: the search for the closest centroid of one point.  The
    index starts at the sentinel [clusters]. *)
Definition closest
    (centroids : mat) (centroidNorms : list float) (dataPoint : vec)
    : float * nat :=
  let clusters := n_cols centroids in
  let dataNorm := dot dataPoint dataPoint in
  fold_left (closest_step centroids centroidNorms dataPoint dataNorm)
            (seq 0 clusters) (DBL_MAX, clusters).

Definition closestCluster
    (centroids : mat) (centroidNorms : list float) (dataPoint : vec) : nat :=
  (closest centroids centroidNorms dataPoint).2.

(** The accumulators: a sum matrix and a count vector, the thread-local
    pair as well as the shared one. *)
Record accum : Type := Accum { sums : list vec; cnts : list nat }.

Definition zero_accum (dims clusters : nat) : accum :=
  {| sums := zeros_mat dims clusters; cnts := zeros_counts clusters |}.

(** Lines 94-95.  Both accesses are bounds-checked by Armadillo. *)
Definition accumulate (acc : accum) (c : nat) (dataPoint : vec)
    : result accum :=
  if decide (c < length (sums acc)) then
    if decide (c < length (cnts acc)) then
      Ok {| sums := alter (fun column => vadd column dataPoint) c (sums acc);
            cnts := alter S c (cnts acc) |}
    else Fault IndexOutOfBounds
  else Fault IndexOutOfBounds.

(** Lines 68-96: the body of the loop over the points of a segment. *)
Definition point_step
    (data centroids : mat) (centroidNorms : list float)
    (acc : result accum) (i : nat) : result accum :=
  a ← acc;
  let dataPoint := col data i in
  accumulate a (closestCluster centroids centroidNorms dataPoint) dataPoint.

(** Line 68: the indices [segmentStart <= i < segmentEnd] that the loop of
    thread [threadId] runs through, in order. *)
Definition segment_of
    (effectiveThreads nominalSegmentSize points threadId : nat) : list nat :=
  let first := segmentStart threadId nominalSegmentSize in
  let last := segmentEnd threadId effectiveThreads nominalSegmentSize points in
  seq first (last - first).

(** Lines 61-96: what one thread of the team computes. *)
Definition thread_local
    (data centroids : mat) (centroidNorms : list float)
    (effectiveThreads nominalSegmentSize : nat) (threadId : nat)
    : result accum :=
  let dims := n_rows data in
  let points := n_cols data in
  let clusters := n_cols centroids in
  fold_left (point_step data centroids centroidNorms)
            (segment_of effectiveThreads nominalSegmentSize points threadId)
            (Ok (zero_accum dims clusters)).

(** Lines 99-103: the critical section of one thread. *)
Definition combine (shared localAcc : accum) : accum :=
  {| sums := zip_with vadd (sums shared) (sums localAcc);
     cnts := zip_with Nat.add (cnts shared) (cnts localAcc) |}.

Definition merge_thread (locals : list accum) (shared : accum) (threadId : nat)
    : accum :=
  match locals !! threadId with
  | Some localAcc => combine shared localAcc
  | None => shared
  end.

(** Lines 59-104: the parallel region.  Every thread fills its local
    accumulators, then the threads enter the critical section in the order
    [schedule]. *)
Definition parallel_region
    (data centroids : mat) (centroidNorms : list float)
    (effectiveThreads nominalSegmentSize : nat) (schedule : list nat)
    : result accum :=
  locals ← mapM (thread_local data centroids centroidNorms
                              effectiveThreads nominalSegmentSize)
                (seq 0 effectiveThreads);
  mret (fold_left (merge_thread locals) schedule
                  (zero_accum (n_rows data) (n_cols centroids))).

(** Lines 107-113. *)
Definition normalize_step (counts : list nat) (newCentroids : list vec)
    (j : nat) : list vec :=
  if decide (0 < nth j counts 0) then
    alter (fun column => vdiv column (double_of_size (nth j counts 0)))
          j newCentroids
  else newCentroids.

Definition normalize (clusters : nat) (acc : accum) : list vec :=
  fold_left (normalize_step (cnts acc)) (seq 0 clusters) (sums acc).

(** Line 117: one way of carrying out the [+] reduction into [cNorm].
    [Original] is the value [cNorm] has before the loop, [Private first count]
    the private copy of a thread whose iterations are the clusters
    [first <= j < first + count], and [Combined a b] the sum of two partial
    results. *)
Inductive reduction_tree : Set :=
  | Original
  | Private (first count : nat)
  | Combined (a b : reduction_tree).

(** Lines 116-121.  [cNorm] is 0.0 before the loop (line 116), and so is
    every private copy before its thread's first iteration. *)
Fixpoint distortion (centroids : mat) (newCentroids : list vec)
    (reduction : reduction_tree) : float :=
  match reduction with
  | Original => 0%float
  | Private first count =>
      fold_left
        (fun cNorm j =>
           (cNorm
            + norm2 (vsub (col centroids j) (nth j newCentroids [])))%float)
        (seq first count) 0%float
  | Combined a b =>
      (distortion centroids newCentroids a
       + distortion centroids newCentroids b)%float
  end.

(** Line 123. *)
Definition size_max : N := 2 ^ 64.

Definition count_distances (km : NaiveKMeans) (clusters points : nat)
    : NaiveKMeans :=
  {| dataset := dataset km;
     distanceCalculations :=
       (distanceCalculations km + N.of_nat clusters * N.of_nat points)
         mod size_max |}.

(** What a completed call leaves behind: the two output arguments, the
    returned value and the kernel with its counter advanced. *)
Record outcome : Type := Outcome {
  newCentroids : mat;
  counts : list nat;
  cNorm : float;
  kernel : NaiveKMeans
}.

(** Lines 59-125, for a team of [effectiveThreads] threads.  The shared
    [newCentroids] and [counts], zeroed at lines 42-43, are the accumulators
    that [parallel_region] merges into. *)
Definition Iterate_team
    (km : NaiveKMeans) (centroids : mat) (centroidNorms : list float)
    (effectiveThreads nominalSegmentSize : nat) (schedule : list nat)
    (reduction : reduction_tree) : result outcome :=
  let dims := n_rows (dataset km) in
  let points := n_cols (dataset km) in
  let clusters := n_cols centroids in
  acc ← parallel_region (dataset km) centroids centroidNorms
                        effectiveThreads nominalSegmentSize schedule;
  let finalCentroids := normalize clusters acc in
  mret {| newCentroids := Mat dims finalCentroids;
          counts := cnts acc;
          cNorm := distortion centroids finalCentroids reduction;
          kernel := count_distances km clusters points |}.

(** [NaiveKMeans::Iterate]. *)
Definition Iterate
    (km : NaiveKMeans) (centroids : mat) (maxThreads : Z)
    (schedule : list nat) (reduction : reduction_tree) : result outcome :=
  let points := n_cols (dataset km) in
  let centroidNorms := centroidNorms_of centroids in
  let effectiveThreads := effectiveThreads_of maxThreads points in
  nominalSegmentSize ← size_div points effectiveThreads;
  Iterate_team km centroids centroidNorms
               effectiveThreads nominalSegmentSize schedule reduction.

(** The schedules a run can follow: the threads of the team, each entering
    the critical section once. *)
Definition team_schedule (km : NaiveKMeans) (maxThreads : Z)
    (schedule : list nat) : Prop :=
  schedule ≡ₚ seq 0 (effectiveThreads_of maxThreads (n_cols (dataset km))).

(** The clusters whose terms a reduction adds, as its leaves list them, the
    number of times the value from before the loop enters it, and the
    number of threads, each with its private copy. *)
Fixpoint iterations (reduction : reduction_tree) : list nat :=
  match reduction with
  | Original => []
  | Private first count => seq first count
  | Combined a b => iterations a ++ iterations b
  end.

Fixpoint originals (reduction : reduction_tree) : nat :=
  match reduction with
  | Original => 1
  | Private _ _ => 0
  | Combined a b => originals a + originals b
  end.

Fixpoint threads (reduction : reduction_tree) : nat :=
  match reduction with
  | Original => 0
  | Private _ _ => 1
  | Combined a b => threads a + threads b
  end.

(** The reductions a run can follow: every cluster is an iteration of
    exactly one thread, and the value from before the loop enters once. *)
Definition team_reduction (centroids : mat) (reduction : reduction_tree)
    : Prop :=
  iterations reduction ≡ₚ seq 0 (n_cols centroids) ∧ originals reduction = 1.

(** ** Vocabulary of the specification *)

(** The cluster index that the search of lines 70-91 leaves for point [i]. *)
Definition assigned (km : NaiveKMeans) (centroids : mat) (i : nat) : nat :=
  closestCluster centroids (centroidNorms_of centroids) (col (dataset km) i).

(** The inner product of two columns: the products of their coordinates,
    added in index order onto [s]. *)
Fixpoint inner_product_onto (s : float) (a b : vec) : float :=
  match a, b with
  | x :: a, y :: b => inner_product_onto (s + x * y)%float a b
  | _, _ => s
  end.

Definition inner_product (a b : vec) : float := inner_product_onto 0%float a b.

(** The squared distance from point [i] to centroid [j] by the
    decomposition [|x|^2 + |c|^2 - 2 x.c]. *)
Definition decomposed_distance
    (km : NaiveKMeans) (centroids : mat) (i j : nat) : float :=
  let x := col (dataset km) i in
  let c := col centroids j in
  (inner_product x x + inner_product c c - 2 * inner_product x c)%float.

(** How many of the points [pts] a cluster assignment [cl] sends to [j]. *)
Definition tally (cl : nat → nat) (pts : list nat) (j : nat) : nat :=
  length (filter (λ i, cl i = j) pts).

(** The size of every cluster under the assignment of the whole dataset. *)
Definition cluster_sizes (km : NaiveKMeans) (centroids : mat) : list nat :=
  map (tally (assigned km centroids) (seq 0 (n_cols (dataset km))))
      (seq 0 (n_cols centroids)).

(** The Euclidean distance between two columns: the square root of the sum
    of the squares of the differences of their coordinates. *)
Fixpoint squared_differences_onto (s : float) (a b : vec) : float :=
  match a, b with
  | x :: a, y :: b =>
      squared_differences_onto (s + (x - y) * (x - y))%float a b
  | _, _ => s
  end.

Definition euclidean_distance (a b : vec) : float :=
  PrimFloat.sqrt (squared_differences_onto 0%float a b).

(** The distance between the old and the new centroid of every cluster. *)
Definition shifts (old new : list vec) : list float :=
  zip_with euclidean_distance old new.

(** [float_sum xs s]: the binary64 number [s] is a sum of the numbers [xs],
    each of them taken once, added in some order and some grouping, every
    addition rounded; a partial sum may start from zero. *)
Inductive float_sum : list float → float → Prop :=
  | float_sum_zero : float_sum [] 0%float
  | float_sum_term x : float_sum [x] x
  | float_sum_add xs ys s t :
      float_sum xs s → float_sum ys t → float_sum (xs ++ ys) (s + t)%float
  | float_sum_perm xs ys s :
      xs ≡ₚ ys → float_sum xs s → float_sum ys s.

(** The sum of the shifts taken in index order, from zero. *)
Definition total_shift (old new : list vec) : float :=
  fold_left (λ acc x, (acc + x)%float) (shifts old new) 0%float.

(** The points among [pts] that an assignment [cl] sends to cluster [j],
    added in order onto the column [start]. *)
Definition column_sum
    (data : mat) (cl : nat → nat) (j : nat) (pts : list nat) (start : vec)
    : vec :=
  fold_left (λ column i, vadd column (col data i))
            (filter (λ i, cl i = j) pts) start.

(** The sum of the points assigned to cluster [j] as a run adds them up:
    every thread sums the points of its segment onto a zero column, and
    the thread sums are added onto a zero column in the order of the
    critical sections. *)
Definition assigned_sum
    (km : NaiveKMeans) (centroids : mat) (maxThreads : Z)
    (schedule : list nat) (j : nat) : vec :=
  let dims := n_rows (dataset km) in
  let points := n_cols (dataset km) in
  let effectiveThreads := effectiveThreads_of maxThreads points in
  let nominalSegmentSize := points / effectiveThreads in
  fold_left
    (λ column threadId,
       vadd column
            (column_sum (dataset km) (assigned km centroids) j
               (segment_of effectiveThreads nominalSegmentSize points threadId)
               (replicate dims 0%float)))
    schedule (replicate dims 0%float).


(** The rational number that a finite double stands for. *)
Definition exact (x : float) : Q :=
  match Prim2SF x with
  | S754_finite s m e =>
      (inject_Z (if s then Z.neg m else Z.pos m) * 2 ^ e)%Q
  | _ => 0%Q
  end.

(** The squared Euclidean distance of two columns of finite doubles, and
    the sum of coordinate [r] of a list of such columns, in exact
    arithmetic. *)
Definition exact_squared_distance (a b : vec) : Q :=
  fold_right
    (λ p s, (exact p.1 - exact p.2) * (exact p.1 - exact p.2) + s)%Q
    0%Q (zip a b).



(** A well-shaped accumulator pair: [clusters] columns and counts, and a
    zero column wherever the count is zero. *)
Definition accum_ok (dims clusters : nat) (a : accum) : Prop :=
  length (sums a) = clusters ∧ length (cnts a) = clusters ∧
  ∀ j, cnts a !! j = Some 0 → sums a !! j = Some (replicate dims 0%float).

(** Every entry of the matrix is a finite double: no infinity, no NaN. *)
Definition finite_mat (m : mat) : Prop :=
  Forall (Forall (λ v, is_finite v = true)) (columns m).

(** Some entry of the vector is an infinity or a NaN. *)
Definition has_nonfinite (v : vec) : Prop :=
  Exists (λ x, is_finite x = false) v.

(** A binary64 value that is plus infinity or a NaN, and one that is not
    below zero. *)
Definition sf_top (s : spec_float) : Prop :=
  s = S754_nan ∨ s = S754_infinity false.
Definition sf_nonneg (s : spec_float) : Prop :=
  SFltb s (S754_zero false) = false.

(** A binary64 value whose sign bit is clear, or a NaN: in particular not
    the negative zero. *)
Definition sf_unsigned (s : spec_float) : Prop :=
  match s with
  | S754_zero true | S754_infinity true | S754_finite true _ _ => False
  | _ => True
  end.

(** The shared accumulators as the parallel region of a call leaves them
    (line 104), before they are normalised. *)
Definition merged
    (km : NaiveKMeans) (centroids : mat) (maxThreads : Z)
    (schedule : list nat) : result accum :=
  let points := n_cols (dataset km) in
  let effectiveThreads := effectiveThreads_of maxThreads points in
  parallel_region (dataset km) centroids (centroidNorms_of centroids)
                  effectiveThreads (points / effectiveThreads) schedule.

(** ** Sample inputs *)

(** The four points and two centroids of the specification's scenario. *)
Definition scenario_dataset : mat :=
  Mat 2 [[0; 0]; [0; 1]; [5; 5]; [5; 6]]%float.
Definition scenario_centroids : mat := Mat 2 [[0; 0]; [5; 5]]%float.

(** 250 points on a line, 150 at 1 and 100 at 3, and the two centroids that
    are their cluster means. *)
Definition line_dataset : mat :=
  Mat 1 (replicate 150 [1%float] ++ replicate 100 [3%float]).
Definition line_centroids : mat := Mat 1 [[1%float]; [3%float]].

(** 100 points at 2, half way between the two centroids above. *)
Definition midway_dataset : mat := Mat 1 (replicate 100 [2%float]).

(** 100 points at [2^600], whose squared norm is beyond [DBL_MAX]. *)
Definition remote_dataset : mat := Mat 1 (replicate 100 [0x1p+600%float]).

(** The 100 points at 2 with one more at minus infinity, and two centroids
    of which the second is a NaN. *)
Definition spoiled_dataset : mat :=
  Mat 1 (replicate 100 [2%float] ++ [[neg_infinity]]).
Definition spoiled_centroids : mat := Mat 1 [[1%float]; [nan]].

(** Two centroids at the same place, and the points of [line_dataset] in
    another order. *)
Definition twin_centroids : mat := Mat 1 [[1%float]; [1%float]].
Definition line_dataset_reordered : mat :=
  Mat 1 (replicate 100 [3%float] ++ replicate 150 [1%float]).

(** Fewer points than [minVectorsPerThread], and none at all. *)
Definition short_dataset : mat := Mat 1 (replicate 50 [1%float]).
Definition empty_dataset : mat := Mat 1 [].

(** The reduction of line 117 by a team of one thread over [clusters]
    clusters, and by a team of two threads over two clusters of which the
    second thread's copy is added first. *)
Definition one_thread (clusters : nat) : reduction_tree :=
  Combined Original (Private 0 clusters).
Definition two_threads : reduction_tree :=
  Combined (Combined Original (Private 1 1)) (Private 0 1).

(** A team of three over three clusters, a cluster each; the copy of the
    first thread is the last to be added. *)
Definition three_threads : reduction_tree :=
  Combined (Combined (Combined Original (Private 1 1)) (Private 2 1))
           (Private 0 1).

(** 100 points at [2^27 - 1], and two centroids at the same exact distance
    3 from them, [2^27 - 4] and [2^27 + 2]. *)
Definition between_dataset : mat := Mat 1 (replicate 100 [134217727%float]).
Definition between_centroids : mat :=
  Mat 1 [[134217724%float]; [134217730%float]].


(** 100 points at 2 and 100 at 6 with three centroids, of which the first,
    at [2^53], is far from all of them: the shifts are [2^53], 1 and 1. *)
Definition drift_dataset : mat :=
  Mat 1 (replicate 100 [2%float] ++ replicate 100 [6%float]).
Definition drift_centroids : mat :=
  Mat 1 [[0x1p+53%float]; [1%float]; [5%float]].

(** * Properties *)

(** ** The error monad *)

Lemma bind_Ok {A B} (k : A → result B) (m : result A) (b : B) :
  m ≫= k = Ok b ↔ ∃ a, m = Ok a ∧ k a = Ok b.
Proof.
  destruct m as [a|f]; simpl; split.
  - intros H. by exists a.
  - by intros (a' & [= <-] & H).
  - discriminate.
  - by intros (a' & [=] & _).
Qed.

Lemma mapM_Ok {A B} (g : A → result B) (l : list A) (ys : list B) :
  mapM g l = Ok ys ↔ Forall2 (fun x y => g x = Ok y) l ys.
Proof.
  revert ys. induction l as [|x l IH]; intros ys; simpl.
  - split.
    + intros [= <-]. constructor.
    + intros H. by inversion H.
  - split.
    + intros H. apply bind_Ok in H as (y & Hy & H).
      apply bind_Ok in H as (k & Hk & [= <-]).
      constructor; [done | by apply IH].
    + intros H. inversion H as [|? y ? k Hy Hk]; subst.
      rewrite Hy. simpl. apply IH in Hk. rewrite Hk. done.
Qed.

(** ** Order facts of binary64 *)

Ltac sf_cases :=
  repeat match goal with
  | x : spec_float |- _ => destruct x as [[]|[]| |[] ? ?]
  end; simpl; try (intros; (discriminate || reflexivity)).

Ltac cmp_cases :=
  repeat match goal with
  | |- context [Z.compare ?a ?b] => destruct (Z.compare_spec a b); subst
  | H : context [Z.compare ?a ?b] |- _ => destruct (Z.compare_spec a b); subst
  | |- context [Pos.compare_cont Eq ?a ?b] =>
      change (Pos.compare_cont Eq a b) with (Pos.compare a b)
  | H : context [Pos.compare_cont Eq ?a ?b] |- _ =>
      change (Pos.compare_cont Eq a b) with (Pos.compare a b) in H
  | |- context [Pos.compare ?a ?b] => destruct (Pos.compare_spec a b); subst
  | H : context [Pos.compare ?a ?b] |- _ =>
      destruct (Pos.compare_spec a b); subst
  end; simpl in *; try (discriminate || reflexivity || lia).

Lemma SFltb_trans a b c :
  SFltb a b = true → SFltb b c = true → SFltb a c = true.
Proof. unfold SFltb. sf_cases; intros; cmp_cases. Qed.

Lemma SFeqb_ltb a b c :
  SFeqb a b = true → SFltb b c = true → SFltb a c = true.
Proof. unfold SFltb, SFeqb. sf_cases; intros; cmp_cases. Qed.

Lemma SFltb_irrefl a : SFltb a a = false.
Proof. unfold SFltb. sf_cases; cmp_cases. Qed.

Lemma SFleb_not_ltb a b : SFleb a b = true → SFltb b a = false.
Proof. unfold SFltb, SFleb. sf_cases; intros; cmp_cases. Qed.

Lemma ltb_trans (a b c : float) :
  (a <? b)%float = true → (b <? c)%float = true → (a <? c)%float = true.
Proof. rewrite !FloatAxioms.ltb_spec. apply SFltb_trans. Qed.

Lemma eqb_ltb (a b c : float) :
  (a =? b)%float = true → (b <? c)%float = true → (a <? c)%float = true.
Proof.
  rewrite FloatAxioms.eqb_spec, !FloatAxioms.ltb_spec. apply SFeqb_ltb.
Qed.

Lemma ltb_irrefl (a : float) : (a <? a)%float = false.
Proof. rewrite FloatAxioms.ltb_spec. apply SFltb_irrefl. Qed.

Lemma leb_not_ltb (a b : float) :
  (a <=? b)%float = true → (b <? a)%float = false.
Proof.
  rewrite FloatAxioms.leb_spec, FloatAxioms.ltb_spec. apply SFleb_not_ltb.
Qed.


(** ** The search for the closest centroid *)

Section closest_search.
Context (centroids : mat) (centroidNorms : list float) (dataPoint : vec).

Local Abbreviation dataNorm := (dot dataPoint dataPoint).
Local Abbreviation d := (distTo centroids centroidNorms dataPoint dataNorm).
Local Abbreviation K := (n_cols centroids).
Local Abbreviation scan n :=
  (fold_left (closest_step centroids centroidNorms dataPoint dataNorm)
             (seq 0 n) (DBL_MAX, K)).

Lemma scan_S n :
  scan (S n) = if (d n <? (scan n).1)%float then (d n, n) else scan n.
Proof. by rewrite seq_S, fold_left_app. Qed.

(** No distance seen so far is below the running minimum. *)
Lemma scan_lower_bound n j :
  j < n → (d j <? (scan n).1)%float = false.
Proof.
  induction n as [|n IH]; [lia|]. intros Hj.
  rewrite scan_S.
  destruct (d n <? (scan n).1)%float eqn:Hlt; cbn [fst snd].
  - destruct (decide (j = n)) as [->|Hne]; [apply ltb_irrefl|].
    destruct (d j <? d n)%float eqn:Hjn; [|done].
    rewrite <- (IH ltac:(lia)). symmetry. by eapply ltb_trans.
  - destruct (decide (j = n)) as [->|Hne]; [done|]. apply IH. lia.
Qed.

(** The running index is the sentinel, or the first index at which the
    running minimum occurs. *)
Lemma scan_index n :
  n ≤ K →
  ((scan n).2 = K ∧ (scan n).1 = DBL_MAX) ∨
  ((scan n).2 < n ∧ (scan n).1 = d (scan n).2 ∧
   ∀ j, j < (scan n).2 → (d j =? d (scan n).2)%float = false).
Proof.
  induction n as [|n IH]; [by left|]. intros Hn.
  rewrite scan_S.
  destruct (d n <? (scan n).1)%float eqn:Hlt; cbn [fst snd].
  - right. repeat split; [lia|]. intros j Hj.
    destruct (d j =? d n)%float eqn:Heq; [|done].
    rewrite <- (scan_lower_bound n j Hj). symmetry. by eapply eqb_ltb.
  - destruct (IH ltac:(lia)) as [?|(? & ? & ?)]; [by left|].
    right. repeat split; [lia|done..].
Qed.

(** A distance below [DBL_MAX] takes the index off the sentinel. *)
Lemma scan_resolves n j :
  n ≤ K → j < n → (d j <? DBL_MAX)%float = true → (scan n).2 < n.
Proof.
  intros Hn Hj Hlt.
  destruct (scan_index n Hn) as [[_ Hmax]|(? & _)]; [|done].
  pose proof (scan_lower_bound n j Hj) as Hlb. congruence.
Qed.

Lemma closestCluster_minimal c j :
  closestCluster centroids centroidNorms dataPoint = c → c < K → j < K →
  (d j <? d c)%float = false.
Proof.
  unfold closestCluster, closest. intros <- Hc Hj.
  destruct (scan_index K (le_n _)) as [[? _]|(_ & <- & _)]; [lia|].
  by apply scan_lower_bound.
Qed.

Lemma closestCluster_first c j :
  closestCluster centroids centroidNorms dataPoint = c → c < K →
  (d j =? d c)%float = true → c ≤ j.
Proof.
  unfold closestCluster, closest. intros <- Hc Heq.
  destruct (scan_index K (le_n _)) as [[? _]|(_ & _ & Hfirst)]; [lia|].
  destruct (decide ((scan K).2 ≤ j)) as [|Hgt]; [done|].
  rewrite Hfirst in Heq by lia. done.
Qed.

Lemma closestCluster_resolves j :
  j < K → (d j <? DBL_MAX)%float = true →
  closestCluster centroids centroidNorms dataPoint < K.
Proof. intros. by eapply scan_resolves. Qed.

(** The lowest-indexed centroid at the least distance is the one chosen. *)
Lemma closestCluster_lowest_minimal c :
  c < K →
  (d c <? DBL_MAX)%float = true →
  (∀ j, j < K → (d c <=? d j)%float = true) →
  (∀ j, j < c → (d c <? d j)%float = true) →
  closestCluster centroids centroidNorms dataPoint = c.
Proof.
  intros Hc Hmax Hle Hlt. unfold closestCluster, closest.
  assert (∀ n, n ≤ K →
    if decide (n ≤ c) then (d c <? (scan n).1)%float = true
    else scan n = (d c, c)) as Hinv.
  { induction n as [|n IH]; intros Hn.
    - by rewrite decide_True by lia.
    - rewrite scan_S. specialize (IH ltac:(lia)).
      destruct (decide (n ≤ c)) as [Hnc|Hnc].
      + destruct (decide (S n ≤ c)) as [Hsc|Hsc].
        * destruct (d n <? (scan n).1)%float; simpl; [apply Hlt; lia|done].
        * assert (n = c) as -> by lia. by rewrite IH.
      + rewrite decide_False by lia. rewrite IH. simpl.
        by rewrite leb_not_ltb by (apply Hle; lia). }
  specialize (Hinv K (le_n _)). rewrite decide_False in Hinv by lia.
  by rewrite Hinv.
Qed.

End closest_search.

(** The cached norm of an existing centroid is its dot product with
    itself, so [distTo] is the decomposition of the squared distance. *)
Lemma centroidNorms_nth (centroids : mat) (j : nat) :
  j < n_cols centroids →
  nth j (centroidNorms_of centroids) 0%float
  = dot (col centroids j) (col centroids j).
Proof.
  intros Hj. unfold centroidNorms_of.
  apply nth_lookup_Some with (d := 0%float).
  rewrite list_lookup_fmap, lookup_seq_lt by done. done.
Qed.

(** ** Tallies *)

Lemma tally_cons cl i pts j :
  tally cl (i :: pts) j = (if decide (cl i = j) then 1 else 0) + tally cl pts j.
Proof.
  unfold tally. rewrite filter_cons. by destruct (decide (cl i = j)).
Qed.

Lemma tally_app cl pts1 pts2 j :
  tally cl (pts1 ++ pts2) j = tally cl pts1 j + tally cl pts2 j.
Proof. unfold tally. by rewrite filter_app, length_app. Qed.

Lemma tally_concat cl (chunks : list (list nat)) j :
  tally cl (concat chunks) j = sum_list_with (λ pts, tally cl pts j) chunks.
Proof.
  induction chunks as [|pts chunks IH]; simpl; [done|].
  by rewrite tally_app, IH.
Qed.

Lemma sum_indicator_out (c s n : nat) :
  c < s ∨ s + n ≤ c →
  sum_list_with (λ j, if decide (c = j) then 1 else 0) (seq s n) = 0.
Proof.
  revert s. induction n as [|n IH]; intros s Hc; simpl; [done|].
  rewrite decide_False by lia. rewrite IH by lia. done.
Qed.

Lemma sum_indicator_in (c s n : nat) :
  s ≤ c < s + n →
  sum_list_with (λ j, if decide (c = j) then 1 else 0) (seq s n) = 1.
Proof.
  revert s. induction n as [|n IH]; intros s Hc; simpl; [lia|].
  destruct (decide (c = s)) as [->|Hne].
  - rewrite sum_indicator_out by lia. done.
  - rewrite IH by lia. done.
Qed.

(** Every point that falls in a cluster below [K] is counted once. *)
Lemma tally_total cl pts K :
  Forall (λ i, cl i < K) pts →
  sum_list_with (tally cl pts) (seq 0 K) = length pts.
Proof.
  induction 1 as [|i pts Hi _ IH]; simpl.
  - induction (seq 0 K) as [|j l IHl]; simpl; [done|]. by rewrite IHl.
  - assert (∀ l, sum_list_with (tally cl (i :: pts)) l
        = sum_list_with (λ j, if decide (cl i = j) then 1 else 0) l
          + sum_list_with (tally cl pts) l) as ->.
    { induction l as [|j l IHl]; simpl; [done|]. rewrite tally_cons. lia. }
    rewrite IH, sum_indicator_in by lia. done.
Qed.

(** ** The accumulators *)

Lemma zero_accum_ok dims K : accum_ok dims K (zero_accum dims K).
Proof.
  unfold accum_ok, zero_accum, zeros_mat, zeros_counts. simpl.
  rewrite !length_replicate. repeat split.
  intros j [_ Hj]%lookup_replicate. by apply lookup_replicate_2.
Qed.

Lemma zero_accum_count dims K j : nth j (cnts (zero_accum dims K)) 0 = 0.
Proof.
  simpl. unfold zeros_counts. rewrite nth_lookup.
  destruct (replicate K 0 !! j) as [n|] eqn:Hn; [|done].
  by apply lookup_replicate in Hn as [-> _].
Qed.

Lemma accumulate_Ok dims K a c x a' :
  accum_ok dims K a → accumulate a c x = Ok a' →
  c < K ∧ accum_ok dims K a' ∧
  ∀ j, nth j (cnts a') 0 = (if decide (c = j) then 1 else 0) + nth j (cnts a) 0.
Proof.
  intros (Hs & Hc & Hz). unfold accumulate.
  destruct (decide (c < length (sums a))) as [Hlt|]; [|done].
  destruct (decide (c < length (cnts a))) as [Hlt'|]; [|done].
  intros [= <-]. cbn [sums cnts]. split; [lia|]. split.
  - unfold accum_ok. cbn [sums cnts]. rewrite !length_alter. repeat split; [done..|].
    intros j Hj. destruct (decide (c = j)) as [->|Hne].
    + rewrite list_lookup_alter_eq in Hj.
      by destruct (cnts a !! j).
    + rewrite list_lookup_alter_ne in Hj by done.
      rewrite list_lookup_alter_ne by done. by apply Hz.
  - intros j. rewrite !nth_lookup. destruct (decide (c = j)) as [->|Hne].
    + rewrite list_lookup_alter_eq.
      destruct (lookup_lt_is_Some_2 (cnts a) j Hlt') as [n ->]. done.
    + by rewrite list_lookup_alter_ne by done.
Qed.

Lemma accumulate_complete dims K a c x :
  accum_ok dims K a → c < K → ∃ a', accumulate a c x = Ok a'.
Proof.
  intros (Hs & Hc & _) Hlt. unfold accumulate.
  rewrite !decide_True by lia. by eexists.
Qed.

Section accumulation.
Context (data centroids : mat) (norms : list float).

Local Abbreviation dims := (n_rows data).
Local Abbreviation K := (n_cols centroids).
Local Abbreviation cl := (λ i, closestCluster centroids norms (col data i)).
Local Abbreviation run pts acc :=
  (fold_left (point_step data centroids norms) pts acc).

Lemma point_fold_Fault pts f : run pts (Fault f) = Fault f.
Proof. induction pts as [|i pts IH]; [done|]. simpl. apply IH. Qed.

Lemma point_fold_Ok pts a a' :
  accum_ok dims K a → run pts (Ok a) = Ok a' →
  Forall (λ i, cl i < K) pts ∧ accum_ok dims K a' ∧
  ∀ j, nth j (cnts a') 0 = tally cl pts j + nth j (cnts a) 0.
Proof.
  revert a. induction pts as [|i pts IH]; intros a Ha; simpl.
  - intros [= <-]. split; [constructor|]. split; [done|]. by intros j.
  - destruct (accumulate a (cl i) (col data i)) as [a1|f] eqn:Hacc.
    + destruct (accumulate_Ok _ _ _ _ _ _ Ha Hacc) as (Hi & Ha1 & Hc1).
      intros (Hpts & Ha' & Hc')%IH; [|done].
      split; [by constructor|]. split; [done|].
      intros j. rewrite Hc', Hc1, tally_cons. lia.
    + by rewrite point_fold_Fault.
Qed.

Lemma point_fold_complete pts a :
  accum_ok dims K a → Forall (λ i, cl i < K) pts → ∃ a', run pts (Ok a) = Ok a'.
Proof.
  intros Ha Hpts. revert a Ha.
  induction Hpts as [|i pts Hi _ IH]; intros a Ha; simpl; [by eexists|].
  destruct (accumulate_complete _ _ _ _ (col data i) Ha Hi) as [a1 Hacc].
  rewrite Hacc. apply IH.
  by destruct (accumulate_Ok _ _ _ _ _ _ Ha Hacc) as (_ & ? & _).
Qed.

Lemma accumulate_sums a c x a' j :
  accumulate a c x = Ok a' →
  sums a' !! j
  = (λ column, if decide (c = j) then vadd column x else column)
      <$> sums a !! j.
Proof.
  unfold accumulate.
  destruct (decide (c < length (sums a))); [|done].
  destruct (decide (c < length (cnts a))); [|done].
  intros [= <-]. cbn [sums]. destruct (decide (c = j)) as [->|Hne].
  - by rewrite list_lookup_alter_eq.
  - rewrite list_lookup_alter_ne by done. by destruct (sums a !! j).
Qed.

Lemma point_fold_sums pts a a' j :
  run pts (Ok a) = Ok a' →
  sums a' !! j = column_sum data cl j pts <$> sums a !! j.
Proof.
  revert a. induction pts as [|i pts IH]; intros a; simpl.
  - intros [= <-]. unfold column_sum. by destruct (sums a !! j).
  - destruct (accumulate a (cl i) (col data i)) as [a1|f] eqn:Hacc.
    + intros Hrun. rewrite (IH _ Hrun), (accumulate_sums _ _ _ _ j Hacc).
      unfold column_sum. rewrite filter_cons.
      destruct (sums a !! j) as [column|]; [|done]. simpl.
      by destruct (decide (cl i = j)).
    + by rewrite point_fold_Fault.
Qed.

Lemma thread_local_sums T seg t a j :
  thread_local data centroids norms T seg t = Ok a → j < K →
  sums a !! j
  = Some (column_sum data cl j (segment_of T seg (n_cols data) t)
                     (replicate dims 0%float)).
Proof.
  unfold thread_local. intros Hrun Hj.
  rewrite (point_fold_sums _ _ _ j Hrun). cbn [zero_accum sums].
  unfold zeros_mat. by rewrite lookup_replicate_2.
Qed.

Lemma thread_local_Ok T seg t a :
  thread_local data centroids norms T seg t = Ok a →
  Forall (λ i, cl i < K) (segment_of T seg (n_cols data) t) ∧
  accum_ok dims K a ∧
  ∀ j, nth j (cnts a) 0 = tally cl (segment_of T seg (n_cols data) t) j.
Proof.
  unfold thread_local.
  intros (Hpts & Ha & Hc)%point_fold_Ok; [|apply zero_accum_ok].
  split; [done|]. split; [done|]. intros j. rewrite Hc, zero_accum_count. lia.
Qed.

Lemma thread_local_complete T seg t :
  Forall (λ i, cl i < K) (segment_of T seg (n_cols data) t) →
  ∃ a, thread_local data centroids norms T seg t = Ok a.
Proof. apply point_fold_complete, zero_accum_ok. Qed.

End accumulation.

(** ** The critical section *)

Lemma vadd_zeros n :
  vadd (replicate n 0%float) (replicate n 0%float) = replicate n 0%float.
Proof. induction n as [|n IH]; [done|]. unfold vadd in *. simpl. by rewrite IH. Qed.

Lemma combine_ok dims K shared localAcc :
  accum_ok dims K shared → accum_ok dims K localAcc →
  accum_ok dims K (combine shared localAcc) ∧
  ∀ j, nth j (cnts (combine shared localAcc)) 0
       = nth j (cnts shared) 0 + nth j (cnts localAcc) 0.
Proof.
  intros (Hs1 & Hc1 & Hz1) (Hs2 & Hc2 & Hz2). split.
  - unfold accum_ok, combine. cbn [sums cnts].
    rewrite !length_zip_with_l_eq by congruence. split; [done|]. split; [done|].
    intros j Hj. rewrite lookup_zip_with in Hj. rewrite lookup_zip_with.
    destruct (cnts shared !! j) as [a|] eqn:Ha; [|done].
    destruct (cnts localAcc !! j) as [b|] eqn:Hb; [|done].
    simpl in Hj. injection Hj as Hj.
    assert (a = 0) as -> by lia. assert (b = 0) as -> by lia.
    rewrite (Hz1 _ Ha), (Hz2 _ Hb). simpl. by rewrite vadd_zeros.
  - intros j. unfold combine. cbn [cnts]. rewrite !nth_lookup, lookup_zip_with.
    destruct (cnts shared !! j) as [a|] eqn:Ha;
      destruct (cnts localAcc !! j) as [b|] eqn:Hb; simpl; try done.
    + apply lookup_lt_Some in Ha. apply lookup_ge_None in Hb. lia.
    + apply lookup_lt_Some in Hb. apply lookup_ge_None in Ha. lia.
Qed.

(** What thread [t] adds to the shared count of cluster [j]. *)
Lemma merge_fold dims K locals schedule shared :
  Forall (accum_ok dims K) locals → accum_ok dims K shared →
  accum_ok dims K (fold_left (merge_thread locals) schedule shared) ∧
  ∀ j, nth j (cnts (fold_left (merge_thread locals) schedule shared)) 0
       = nth j (cnts shared) 0
         + sum_list_with
             (λ t, from_option (λ a, nth j (cnts a) 0) 0 (locals !! t))
             schedule.
Proof.
  intros Hlocals. revert shared.
  induction schedule as [|t schedule IH]; intros shared Hshared; simpl.
  - split; [done|]. intros j. lia.
  - unfold merge_thread at 2 4.
    destruct (locals !! t) as [a|] eqn:Ht; simpl.
    + pose proof (Forall_lookup_1 _ _ _ _ Hlocals Ht) as Ha.
      destruct (combine_ok _ _ _ _ Hshared Ha) as [Hok Hcnt].
      destruct (IH _ Hok) as [Hok' Hcnt']. split; [done|].
      intros j. rewrite Hcnt', Hcnt. lia.
    + destruct (IH _ Hshared) as [Hok' Hcnt']. split; [done|].
      intros j. by rewrite Hcnt'.
Qed.

Lemma merge_fold_sums dims K locals schedule shared j :
  Forall (accum_ok dims K) locals → accum_ok dims K shared →
  sums (fold_left (merge_thread locals) schedule shared) !! j
  = (λ start,
       fold_left
         (λ column t,
            match locals !! t with
            | Some localAcc => vadd column (nth j (sums localAcc) [])
            | None => column
            end)
         schedule start) <$> sums shared !! j.
Proof.
  intros Hlocals. revert shared.
  induction schedule as [|t schedule IH]; intros shared Hshared; simpl.
  - by destruct (sums shared !! j).
  - unfold merge_thread at 2.
    destruct (locals !! t) as [a|] eqn:Ht; [|by apply IH].
    pose proof (Forall_lookup_1 _ _ _ _ Hlocals Ht) as Ha.
    destruct (combine_ok _ _ _ _ Hshared Ha) as [Hok _].
    rewrite (IH _ Hok). unfold combine. cbn [sums].
    rewrite lookup_zip_with.
    destruct Hshared as (Hs1 & _ & _). destruct Ha as (Hs2 & _ & _).
    destruct (sums shared !! j) as [x|] eqn:Hx; [|done].
    destruct (sums a !! j) as [y|] eqn:Hy.
    + simpl. by rewrite (nth_lookup_Some _ _ [] _ Hy).
    + apply lookup_lt_Some in Hx. apply lookup_ge_None in Hy. lia.
Qed.

Lemma fold_left_ext_in {A B} (g h : A → B → A) (l : list B) (a : A) :
  (∀ acc x, x ∈ l → g acc x = h acc x) → fold_left g l a = fold_left h l a.
Proof.
  revert a. induction l as [|x l IH]; intros a Hext; simpl; [done|].
  rewrite Hext by left. apply IH. intros acc y Hy. apply Hext. by right.
Qed.

(** ** The partition of the points among the threads *)

Lemma segment_of_inner T seg N t :
  t ≠ T - 1 → segment_of T seg N t = seq (t * seg) seg.
Proof.
  intros Ht. unfold segment_of, segmentStart, segmentEnd.
  rewrite decide_False by done. f_equal. lia.
Qed.

Lemma segment_of_last T seg N :
  segment_of T seg N (T - 1) = seq ((T - 1) * seg) (N - (T - 1) * seg).
Proof. unfold segment_of, segmentStart, segmentEnd. by rewrite decide_True. Qed.

Lemma inner_segments_concat seg n :
  concat ((λ t, seq (t * seg) seg) <$> seq 0 n) = seq 0 (n * seg).
Proof.
  induction n as [|n IH]; [done|].
  replace (S n * seg) with (n * seg + seg) by lia.
  rewrite seq_S, fmap_app, concat_app, IH, seq_app.
  cbn [fmap list_fmap concat]. by rewrite app_nil_r.
Qed.

(** The segments of the team are the range [0, N) cut into consecutive
    pieces: no index is lost and none is taken twice. *)
Lemma segments_partition T N :
  1 ≤ T →
  concat (segment_of T (N / T) N <$> seq 0 T) = seq 0 N.
Proof.
  intros HT. set (seg := N / T).
  replace T with (S (T - 1)) at 2 by lia.
  rewrite seq_S, fmap_app, concat_app.
  cbn [fmap list_fmap concat]. rewrite app_nil_r.
  change (0 + (T - 1)) with (T - 1). rewrite segment_of_last.
  rewrite (list_fmap_ext _ (λ t, seq (t * seg) seg)).
  - rewrite inner_segments_concat.
    assert ((T - 1) * seg ≤ N) as Hle.
    { pose proof (Nat.Div0.mul_div_le N T). subst seg. nia. }
    etrans; [symmetry; apply (seq_app ((T - 1) * seg) (N - (T - 1) * seg) 0)|].
    f_equal. lia.
  - intros i t [-> Hi]%lookup_seq. apply segment_of_inner. lia.
Qed.

(** ** The parallel region *)

Lemma sum_list_with_ext_in {A} (g h : A → nat) (l : list A) :
  (∀ x, x ∈ l → g x = h x) → sum_list_with g l = sum_list_with h l.
Proof.
  induction l as [|x l IH]; intros Hext; simpl; [done|].
  rewrite Hext by left. rewrite IH; [done|]. intros y Hy. apply Hext. by right.
Qed.

Lemma sum_list_with_fmap {A B} (g : B → nat) (h : A → B) (l : list A) :
  sum_list_with g (h <$> l) = sum_list_with (g ∘ h) l.
Proof. induction l as [|x l IH]; csimpl; [done|]. by rewrite IH. Qed.

Lemma sum_list_fmap_with {A} (g : A → nat) (l : list A) :
  sum_list (g <$> l) = sum_list_with g l.
Proof. induction l as [|x l IH]; csimpl; [done|]. by rewrite IH. Qed.

Lemma mapM_complete {A B} (g : A → result B) (l : list A) :
  Forall (λ x, ∃ y, g x = Ok y) l → ∃ ys, mapM g l = Ok ys.
Proof.
  induction 1 as [|x l [y Hy] _ [ys Hys]]; simpl; [by eexists|].
  rewrite Hy. simpl. rewrite Hys. by eexists.
Qed.

Lemma list_eq_nth (l : list nat) (g : nat → nat) (K : nat) :
  length l = K → (∀ j, j < K → nth j l 0 = g j) → l = g <$> seq 0 K.
Proof.
  intros Hlen Hnth. apply list_eq. intros j.
  rewrite list_lookup_fmap.
  destruct (decide (j < K)) as [Hj|Hj].
  - rewrite lookup_seq_lt by done. simpl. rewrite <- Hnth by done.
    destruct (nth_lookup_or_length l j 0) as [->|]; [done|lia].
  - rewrite lookup_seq_ge by lia. simpl. apply lookup_ge_None. lia.
Qed.

Section parallel.
Context (data centroids : mat) (norms : list float).
Context (T seg : nat) (schedule : list nat).

Local Abbreviation dims := (n_rows data).
Local Abbreviation N := (n_cols data).
Local Abbreviation K := (n_cols centroids).
Local Abbreviation cl := (λ i, closestCluster centroids norms (col data i)).
Local Abbreviation processed := (concat (segment_of T seg N <$> seq 0 T)).

Lemma parallel_region_Ok acc :
  parallel_region data centroids norms T seg schedule = Ok acc →
  Forall (λ i, cl i < K) processed ∧
  accum_ok dims K acc ∧
  (schedule ≡ₚ seq 0 T → ∀ j, nth j (cnts acc) 0 = tally cl processed j).
Proof.
  unfold parallel_region.
  intros (locals & Hlocals%mapM_Ok & [= <-])%bind_Ok.
  assert (Forall (accum_ok dims K) locals) as Hok.
  { apply Forall_lookup. intros t a Ha.
    destruct (Forall2_lookup_r _ _ _ _ _ Hlocals Ha) as (t' & _ & Ht).
    by apply thread_local_Ok in Ht as (_ & ? & _). }
  destruct (merge_fold dims K locals schedule _ Hok (zero_accum_ok dims K))
    as [Hacc Hcnt].
  split; [|split; [done|]].
  - apply Forall_concat, Forall_fmap, Forall_lookup. intros i t Ht.
    destruct (Forall2_lookup_l _ _ _ _ _ Hlocals Ht) as (a & _ & Ha).
    by apply thread_local_Ok in Ha as (? & _).
  - intros Hperm j.
    rewrite Hcnt, zero_accum_count, Hperm, tally_concat, sum_list_with_fmap.
    simpl. apply sum_list_with_ext_in. intros t Ht.
    apply list_elem_of_lookup in Ht as [i Hi].
    destruct (Forall2_lookup_l _ _ _ _ _ Hlocals Hi) as (a & Hla & Ha).
    apply lookup_seq in Hi as [-> _]. change (0 + i) with i.
    rewrite Hla. simpl.
    by apply thread_local_Ok in Ha as (_ & _ & ->).
Qed.

Lemma parallel_region_sums acc j :
  parallel_region data centroids norms T seg schedule = Ok acc →
  Forall (λ t, t < T) schedule → j < K →
  sums acc !! j
  = Some (fold_left
            (λ column t,
               vadd column
                    (column_sum data cl j (segment_of T seg N t)
                                (replicate dims 0%float)))
            schedule (replicate dims 0%float)).
Proof.
  unfold parallel_region.
  intros (locals & Hlocals%mapM_Ok & [= <-])%bind_Ok Hsched Hj.
  assert (Forall (accum_ok dims K) locals) as Hok.
  { apply Forall_lookup. intros t a Ha.
    destruct (Forall2_lookup_r _ _ _ _ _ Hlocals Ha) as (t' & _ & Ht).
    by apply thread_local_Ok in Ht as (_ & ? & _). }
  rewrite (merge_fold_sums dims K) by (done || apply zero_accum_ok).
  cbn [zero_accum sums]. unfold zeros_mat.
  rewrite lookup_replicate_2 by done. simpl. f_equal.
  apply fold_left_ext_in. intros column t Ht.
  rewrite Forall_forall in Hsched. specialize (Hsched t Ht).
  destruct (Forall2_lookup_l _ _ _ _ _ Hlocals (lookup_seq_lt 0 T t Hsched))
    as (a & Hla & Ha).
  change (0 + t) with t in Ha. rewrite Hla.
  by rewrite (nth_lookup_Some _ _ [] _ (thread_local_sums _ _ _ _ _ _ _ j Ha Hj)).
Qed.

Lemma parallel_region_complete :
  Forall (λ i, cl i < K) processed →
  ∃ acc, parallel_region data centroids norms T seg schedule = Ok acc.
Proof.
  intros Hall%Forall_concat. rewrite Forall_fmap in Hall.
  unfold parallel_region.
  destruct (mapM_complete
              (thread_local data centroids norms T seg) (seq 0 T))
    as [locals ->]; [|by eexists].
  eapply Forall_impl; [apply Hall|]. intros t Ht.
  by apply thread_local_complete.
Qed.

End parallel.

(** ** The thread count *)

Lemma numThreads_pos maxThreads : 1 ≤ numThreads_of maxThreads.
Proof. unfold numThreads_of. lia. Qed.

Lemma effectiveThreads_small maxThreads points :
  points < minVectorsPerThread → effectiveThreads_of maxThreads points = 0.
Proof.
  intros Hlt. unfold effectiveThreads_of.
  rewrite Nat.div_small by done. lia.
Qed.

Lemma effectiveThreads_pos maxThreads points :
  minVectorsPerThread ≤ points → 1 ≤ effectiveThreads_of maxThreads points.
Proof.
  intros Hle. unfold effectiveThreads_of.
  pose proof (numThreads_pos maxThreads).
  assert (1 ≤ points / minVectorsPerThread).
  { apply Nat.div_le_lower_bound; unfold minVectorsPerThread in *; lia. }
  lia.
Qed.

(** ** Iterate as a whole *)

Section iterate.
Context (km : NaiveKMeans) (centroids : mat).
Context (maxThreads : Z) (schedule : list nat) (reduction : reduction_tree).

Local Abbreviation dims := (n_rows (dataset km)).
Local Abbreviation N := (n_cols (dataset km)).
Local Abbreviation K := (n_cols centroids).
Local Abbreviation T := (effectiveThreads_of maxThreads N).

Lemma Iterate_small :
  N < minVectorsPerThread →
  Iterate km centroids maxThreads schedule reduction = Fault DivisionByZero.
Proof.
  intros Hlt. unfold Iterate, size_div.
  by rewrite effectiveThreads_small.
Qed.

(** The division of line 57 is the only one: the call ends in
    [DivisionByZero] exactly when there are too few points. *)
Lemma Iterate_small_iff :
  Iterate km centroids maxThreads schedule reduction = Fault DivisionByZero ↔
  N < minVectorsPerThread.
Proof.
  split; [|apply Iterate_small]. intros Hfault.
  destruct (decide (N < minVectorsPerThread)) as [|Hge]; [done|].
  exfalso. revert Hfault. unfold Iterate, size_div.
  pose proof (effectiveThreads_pos maxThreads N ltac:(lia)).
  rewrite decide_False by lia. unfold Iterate_team, parallel_region.
  simpl.
  destruct (mapM _ _) as [locals|f] eqn:Hlocals; simpl; [done|].
  intros [= ->]. revert Hlocals.
  generalize (seq 0 T). intros ts. induction ts as [|t ts IH]; [done|].
  simpl.
  destruct (thread_local _ _ _ _ _ t) as [a|f] eqn:Ht; simpl.
  - destruct (mapM _ ts) as [k|f]; simpl; [done|]. intros [= ->]. by apply IH.
  - intros [= ->]. revert Ht. unfold thread_local.
    generalize (zero_accum (n_rows (dataset km)) (n_cols centroids)).
    generalize (segment_of T (N / T) N t). intros pts.
    induction pts as [|i pts IHp]; intros a; simpl; [done|].
    destruct (accumulate a _ _) as [a1|f] eqn:Hacc; [apply IHp|].
    rewrite point_fold_Fault. intros [= ->]. revert Hacc. unfold accumulate.
    by repeat case_decide.
Qed.

Lemma Iterate_large :
  minVectorsPerThread ≤ N →
  Iterate km centroids maxThreads schedule reduction
  = Iterate_team km centroids (centroidNorms_of centroids) T (N / T)
                 schedule reduction.
Proof.
  intros Hle. unfold Iterate, size_div.
  pose proof (effectiveThreads_pos maxThreads N Hle).
  by rewrite decide_False by lia.
Qed.

Lemma Iterate_inv out :
  Iterate km centroids maxThreads schedule reduction = Ok out →
  minVectorsPerThread ≤ N ∧ 1 ≤ T ∧
  ∃ acc,
    parallel_region (dataset km) centroids (centroidNorms_of centroids)
                    T (N / T) schedule = Ok acc ∧
    out = {| newCentroids := Mat dims (normalize K acc);
             counts := cnts acc;
             cNorm := distortion centroids (normalize K acc) reduction;
             kernel := count_distances km K N |}.
Proof.
  destruct (decide (N < minVectorsPerThread)) as [Hlt|Hge].
  { by rewrite Iterate_small. }
  rewrite Iterate_large by lia. unfold Iterate_team.
  intros (acc & Hacc & [= <-])%bind_Ok.
  split; [lia|]. split; [apply effectiveThreads_pos; lia|]. by exists acc.
Qed.

(** A call that returns has found a cluster for every point. *)
Lemma Iterate_assigns_all out i :
  Iterate km centroids maxThreads schedule reduction = Ok out →
  i < N → assigned km centroids i < K.
Proof.
  intros (_ & HT & acc & Hacc & _)%Iterate_inv Hi.
  apply parallel_region_Ok in Hacc as (Hall & _).
  rewrite segments_partition in Hall by done.
  rewrite Forall_seq in Hall. apply (Hall i). lia.
Qed.

(** The counts of a call that returns are the cluster sizes, whatever the
    team and the order of the critical sections. *)
Lemma Iterate_counts out :
  team_schedule km maxThreads schedule →
  Iterate km centroids maxThreads schedule reduction = Ok out →
  counts out = cluster_sizes km centroids.
Proof.
  intros Hsched (_ & HT & acc & Hacc & ->)%Iterate_inv. cbn [counts].
  apply parallel_region_Ok in Hacc as (_ & (_ & Hlen & _) & Hcnt).
  unfold cluster_sizes. apply list_eq_nth; [done|]. intros j _.
  rewrite Hcnt by done. by rewrite segments_partition.
Qed.

(** With at least [minVectorsPerThread] points, a call returns as soon as
    every point finds a cluster. *)
Lemma Iterate_complete :
  minVectorsPerThread ≤ N →
  (∀ i, i < N → assigned km centroids i < K) →
  ∃ out, Iterate km centroids maxThreads schedule reduction = Ok out.
Proof.
  intros Hle Hall. rewrite Iterate_large by done. unfold Iterate_team.
  destruct (parallel_region_complete (dataset km) centroids
              (centroidNorms_of centroids) T (N / T) schedule) as [acc ->].
  - rewrite segments_partition by by apply effectiveThreads_pos.
    apply Forall_seq. intros i Hi. apply Hall. lia.
  - by eexists.
Qed.

End iterate.

(** ** Normalisation *)

Lemma seq_0_S n : seq 0 (S n) = seq 0 n ++ [n].
Proof. apply (seq_S n 0). Qed.

Lemma normalize_fold_length counts n (cols : list vec) :
  length (fold_left (normalize_step counts) (seq 0 n) cols) = length cols.
Proof.
  induction n as [|n IH]; [done|].
  rewrite seq_0_S, fold_left_app. cbn [fold_left]. unfold normalize_step at 1.
  destruct (decide (0 < nth n counts 0)); [|done]. by rewrite length_alter.
Qed.

Lemma normalize_length K acc : length (normalize K acc) = length (sums acc).
Proof. apply normalize_fold_length. Qed.

(** Turn [j] of the loop is the only one that touches column [j]. *)
Lemma normalize_fold_lookup counts n (cols : list vec) j :
  fold_left (normalize_step counts) (seq 0 n) cols !! j
  = if decide (j < n ∧ 0 < nth j counts 0)
    then (λ column, vdiv column (double_of_size (nth j counts 0))) <$> cols !! j
    else cols !! j.
Proof.
  induction n as [|n IH].
  - rewrite decide_False by lia. done.
  - rewrite seq_0_S, fold_left_app. cbn [fold_left]. unfold normalize_step at 1.
    destruct (decide (0 < nth n counts 0)) as [Hn|Hn].
    + destruct (decide (j = n)) as [->|Hne].
      * rewrite list_lookup_alter_eq, IH.
        rewrite decide_False by lia. by rewrite decide_True by lia.
      * rewrite list_lookup_alter_ne, IH by done.
        destruct (decide (j < n ∧ 0 < nth j counts 0)).
        -- by rewrite decide_True by lia.
        -- by rewrite decide_False by lia.
    + rewrite IH. destruct (decide (j < n ∧ 0 < nth j counts 0)).
      * by rewrite decide_True by lia.
      * rewrite decide_False; [done|]. intros [? ?].
        destruct (decide (j = n)) as [->|]; lia.
Qed.

Lemma normalize_nth K acc j :
  j < K → K = length (sums acc) →
  nth j (normalize K acc) []
  = if decide (0 < nth j (cnts acc) 0)
    then vdiv (nth j (sums acc) []) (double_of_size (nth j (cnts acc) 0))
    else nth j (sums acc) [].
Proof.
  intros Hj HK. unfold normalize.
  pose proof (normalize_fold_lookup (cnts acc) K (sums acc) j) as Hl.
  destruct (lookup_lt_is_Some_2 (sums acc) j ltac:(lia)) as [column Hc].
  rewrite Hc in Hl. rewrite (nth_lookup_Some (sums acc) j [] column Hc).
  destruct (decide (0 < nth j (cnts acc) 0)).
  - rewrite decide_True in Hl by lia. by apply nth_lookup_Some.
  - rewrite decide_False in Hl by lia. by apply nth_lookup_Some.
Qed.

(** ** The distortion *)

Lemma fold_left_fmap {A B C} (g : C → B → C) (h : A → B) (l : list A) (a : C) :
  fold_left g (h <$> l) a = fold_left (λ acc x, g acc (h x)) l a.
Proof. revert a. induction l as [|x l IH]; intros a; csimpl; [done|]. apply IH. Qed.

(** The terms of the specification's formulas are the numbers that
    Armadillo's [dot] and [norm] compute. *)
Lemma dot_inner_product (a b : vec) : dot a b = inner_product a b.
Proof.
  unfold dot, inner_product. generalize 0%float. revert b.
  induction a as [|x a IH]; intros [|y b] s; try done. simpl. apply IH.
Qed.

Lemma norm2_vsub (a b : vec) : norm2 (vsub a b) = euclidean_distance a b.
Proof.
  unfold norm2, euclidean_distance, dot, vsub. f_equal.
  generalize 0%float. revert b.
  induction a as [|x a IH]; intros [|y b] s; try done. simpl. apply IH.
Qed.

Lemma zip_with_nth {A B C} (g : A → B → C) (d1 : A) (d2 : B)
    (l1 : list A) (l2 : list B) :
  length l1 = length l2 →
  zip_with g l1 l2 = (λ j, g (nth j l1 d1) (nth j l2 d2)) <$> seq 0 (length l1).
Proof.
  revert l2. induction l1 as [|x l1 IH]; intros [|y l2] Hlen; try done.
  cbn [length seq zip_with fmap list_fmap nth]. f_equal.
  rewrite <- fmap_S_seq, <- list_fmap_compose. apply IH.
  simpl in Hlen. lia.
Qed.

(** The shift of every cluster is the term that line 120 adds for it. *)
Lemma shifts_terms centroids (newCols : list vec) :
  length newCols = n_cols centroids →
  shifts (columns centroids) newCols
  = (λ j, norm2 (vsub (col centroids j) (nth j newCols [])))
    <$> seq 0 (n_cols centroids).
Proof.
  intros Hlen. unfold shifts, col, n_cols.
  rewrite (zip_with_nth euclidean_distance [] []) by done.
  apply list_fmap_ext. intros _ j _. by rewrite norm2_vsub.
Qed.

(** Adding numbers in order onto a sum gives a sum. *)
Lemma float_sum_fold (xs ys : list float) (s : float) :
  float_sum ys s →
  float_sum (ys ++ xs) (fold_left (λ acc x, (acc + x)%float) xs s).
Proof.
  revert ys s. induction xs as [|x xs IH]; intros ys s Hs; simpl.
  - by rewrite app_nil_r.
  - rewrite cons_middle, (assoc_L (++) ys [x] xs). apply IH.
    apply float_sum_add; [done|constructor].
Qed.

(** Whatever the reduction, [cNorm] is a sum of the terms of the clusters
    that the reduction runs through. *)
Lemma distortion_float_sum centroids (newCols : list vec) reduction :
  float_sum
    ((λ j, norm2 (vsub (col centroids j) (nth j newCols [])))
     <$> iterations reduction)
    (distortion centroids newCols reduction).
Proof.
  induction reduction as [|first count|a IHa b IHb];
    cbn [distortion iterations].
  - constructor.
  - rewrite <- fold_left_fmap.
    apply (float_sum_fold _ [] 0%float). constructor.
  - rewrite fmap_app. by apply float_sum_add.
Qed.

Lemma distortion_shifts centroids (newCols : list vec) reduction :
  team_reduction centroids reduction →
  length newCols = n_cols centroids →
  float_sum (shifts (columns centroids) newCols)
            (distortion centroids newCols reduction).
Proof.
  intros [Hperm _] Hlen. rewrite shifts_terms by done.
  eapply float_sum_perm; [|apply distortion_float_sum].
  by apply fmap_Permutation.
Qed.





(** ** The kernel object *)


Lemma Iterate_kernel_dataset km centroids maxThreads schedule reduction out :
  Iterate km centroids maxThreads schedule reduction = Ok out →
  dataset (kernel out) = dataset km.
Proof. by intros (_ & _ & acc & _ & ->)%Iterate_inv. Qed.

Lemma decomposed_distance_distTo km centroids i j :
  j < n_cols centroids →
  distTo centroids (centroidNorms_of centroids) (col (dataset km) i)
         (dot (col (dataset km) i) (col (dataset km) i)) j
  = decomposed_distance km centroids i j.
Proof.
  intros Hj. unfold distTo, decomposed_distance, squaredDistance.
  by rewrite centroidNorms_nth, !dot_inner_product.
Qed.

Lemma decomposed_distance_dot km centroids i j :
  decomposed_distance km centroids i j
  = squaredDistance (dot (col (dataset km) i) (col (dataset km) i))
                    (dot (col centroids j) (col centroids j))
                    (dot (col (dataset km) i) (col centroids j)).
Proof.
  unfold decomposed_distance, squaredDistance.
  by rewrite !dot_inner_product.
Qed.

Lemma team_schedule_in_team km maxThreads schedule :
  team_schedule km maxThreads schedule →
  Forall (λ t, t < effectiveThreads_of maxThreads (n_cols (dataset km)))
         schedule.
Proof.
  intros Hsched. apply Forall_forall. intros t Ht.
  rewrite Hsched in Ht. apply elem_of_seq in Ht. lia.
Qed.

(** The new centroids have a column for every cluster, and the returned
    value is the distortion of lines 116-121 on them. *)
Lemma Iterate_newCentroids_cols km centroids maxThreads schedule reduction out :
  Iterate km centroids maxThreads schedule reduction = Ok out →
  n_cols (newCentroids out) = n_cols centroids.
Proof.
  intros (_ & _ & acc & Hacc & ->)%Iterate_inv.
  apply parallel_region_Ok in Hacc as (_ & (Hlen & _ & _) & _).
  unfold n_cols at 1. cbn [newCentroids columns].
  by rewrite normalize_length.
Qed.

Lemma Iterate_cNorm km centroids maxThreads schedule reduction out :
  Iterate km centroids maxThreads schedule reduction = Ok out →
  cNorm out = distortion centroids (columns (newCentroids out)) reduction.
Proof. by intros (_ & _ & acc & _ & ->)%Iterate_inv. Qed.



(** * The claims of the specification *)

(** C1 (the code departs from the claim).  The claim wants the effective
    thread count to be at least one for every dataset size.  In the code
    [numThreads] is clamped to one, but the minimum with
    [points / minVectorsPerThread] is not: with fewer than
    [minVectorsPerThread] points the effective thread count is zero, and the
    division [points / effectiveThreads] of line 57 has no result. *)
Theorem small_dataset_zero_threads km centroids maxThreads schedule reduction :
  n_cols (dataset km) < minVectorsPerThread →
  effectiveThreads_of maxThreads (n_cols (dataset km)) = 0 ∧
  Iterate km centroids maxThreads schedule reduction = Fault DivisionByZero.
Proof.
  intros Hlt. split; [by apply effectiveThreads_small|by apply Iterate_small].
Qed.

Lemma small_dataset_zero_threads_witness :
  effectiveThreads_of 4 (n_cols (dataset (NaiveKMeans_new short_dataset))) = 0 ∧
  Iterate (NaiveKMeans_new short_dataset) line_centroids 4 [0] (one_thread 2)
  = Fault DivisionByZero.
Proof.
  apply (small_dataset_zero_threads
           (NaiveKMeans_new short_dataset) line_centroids 4 [0]
           (one_thread 2)).
  vm_compute. lia.
Defined.

(** C2 (the code departs from the claim).  The claim wants every point of
    finite inputs with at least one centroid to be given the cluster at the
    least computed distance.  The 100 points of [remote_dataset] and the one
    centroid at 0 are finite; but the squared norm of a point, [2^1200], is
    beyond [DBL_MAX]: the computed distance is plus infinity, it is not
    below the [DBL_MAX] that [minDistance] starts from, and the index of
    every point stays at the sentinel [clusters], which is no cluster.
    Lines 94-95 use it all the same and are out of range. *)
Theorem remote_points_get_no_cluster maxThreads schedule reduction :
  finite_mat remote_dataset ∧
  finite_mat (Mat 1 [[0%float]]) ∧
  0 < n_cols (Mat 1 [[0%float]]) ∧
  decomposed_distance (NaiveKMeans_new remote_dataset) (Mat 1 [[0%float]]) 0 0
  = infinity ∧
  assigned (NaiveKMeans_new remote_dataset) (Mat 1 [[0%float]]) <$> seq 0 100
  = replicate 100 (n_cols (Mat 1 [[0%float]])) ∧
  Iterate (NaiveKMeans_new remote_dataset) (Mat 1 [[0%float]])
          maxThreads schedule reduction
  = Fault IndexOutOfBounds.
Proof.
  split; [apply Forall_replicate; by repeat constructor|].
  split; [by repeat constructor|].
  split; [vm_compute; lia|].
  split; [vm_compute; reflexivity|].
  split; [vm_compute; reflexivity|].
  destruct (Iterate (NaiveKMeans_new remote_dataset) (Mat 1 [[0%float]])
                    maxThreads schedule reduction) as [out|[]] eqn:Hout;
    [| |done].
  - pose proof (Iterate_assigns_all _ _ _ _ _ _ 0 Hout) as Hc.
    vm_compute in Hc. lia.
  - rewrite Iterate_small_iff in Hout. vm_compute in Hout. lia.
Qed.

(** C3 (the code departs from the claim).  The claim wants the counts to
    add up to [N] for every [N > 0] and [K > 0].  A call on the 50 points of
    [short_dataset] with one centroid produces no counts at all: the
    effective thread count is zero and line 57 divides by it.  (With
    [minVectorsPerThread] points or more the counts of a call that returns
    do add up to [N], as is shown further down.) *)
Theorem short_dataset_has_no_counts maxThreads schedule reduction :
  0 < n_cols short_dataset ∧
  0 < n_cols (Mat 1 [[1%float]]) ∧
  Iterate (NaiveKMeans_new short_dataset) (Mat 1 [[1%float]])
          maxThreads schedule reduction
  = Fault DivisionByZero.
Proof.
  split; [vm_compute; lia|]. split; [vm_compute; lia|].
  apply Iterate_small. vm_compute. lia.
Qed.

(** C4 (the claim is amended).  The claim is about centroids at the same
    exact distance from a point; the search compares the distances it
    computes, and these are rounded.  The amended claim: let centroid [c]
    be at the least computed distance from point [i] (below [DBL_MAX]), and
    let every centroid of a lower index be strictly farther by the computed
    distances, so that [c] is the lowest-indexed of the centroids at the
    least computed distance, however many of them tie with it.  Then [c] is
    the cluster that the search assigns to the point.  The search has no
    thread among its arguments: the thread count does not enter. *)
Theorem lowest_minimal_centroid_assigned km centroids i c :
  c < n_cols centroids →
  (decomposed_distance km centroids i c <? DBL_MAX)%float = true →
  (∀ j, j < n_cols centroids →
     (decomposed_distance km centroids i c
      <=? decomposed_distance km centroids i j)%float = true) →
  (∀ j, j < c →
     (decomposed_distance km centroids i c
      <? decomposed_distance km centroids i j)%float = true) →
  assigned km centroids i = c.
Proof.
  intros Hc Hmax Hle Hlt. apply closestCluster_lowest_minimal; [done|..].
  - by rewrite decomposed_distance_distTo.
  - intros j Hj. rewrite !decomposed_distance_distTo by done. by apply Hle.
  - intros j Hj. rewrite !decomposed_distance_distTo by lia. by apply Hlt.
Qed.

Lemma lowest_minimal_centroid_assigned_witness :
  assigned (NaiveKMeans_new midway_dataset) line_centroids 7 = 0.
Proof.
  apply (lowest_minimal_centroid_assigned
           (NaiveKMeans_new midway_dataset) line_centroids 7 0).
  - vm_compute. lia.
  - vm_compute. reflexivity.
  - intros [|[|j]] Hj; [vm_compute; reflexivity..|].
    exfalso. vm_compute in Hj. lia.
  - intros j Hj. exfalso. lia.
Defined.

(** C4, the counterexample.  The claim as it is stated fails on
    [between_dataset]: its points, at [2^27 - 1], are at the exact distance
    3 from both centroids, [2^27 - 4] and [2^27 + 2], so the two are tied in
    exact arithmetic and both are minimal.  The computed distances are 8
    and 0, and every point is given cluster 1, the higher index. *)
Lemma exact_tie_goes_to_later_centroid :
  (exact_squared_distance (col between_dataset 0) (col between_centroids 0)
   == exact_squared_distance (col between_dataset 0)
                             (col between_centroids 1))%Q ∧
  decomposed_distance (NaiveKMeans_new between_dataset) between_centroids 0 0
  = 8%float ∧
  decomposed_distance (NaiveKMeans_new between_dataset) between_centroids 0 1
  = 0%float ∧
  assigned (NaiveKMeans_new between_dataset) between_centroids <$> seq 0 100
  = replicate 100 1 ∧
  Iterate (NaiveKMeans_new between_dataset) between_centroids 1 [0]
          (one_thread 2)
  = Ok {| newCentroids := Mat 1 [[0%float]; [134217727%float]];
          counts := [0; 100];
          cNorm := 134217727%float;
          kernel := {| dataset := between_dataset;
                       distanceCalculations := 200 |} |}.
Proof. repeat split; vm_compute; reflexivity. Qed.

(** C5.  The value a call returns is a sum, over the [K] clusters, of the
    Euclidean distance between the centroid it was given and the new
    centroid it wrote: each of the [K] distances enters the sum once.  The
    sum is a binary64 sum, taken in the order of the reduction. *)
Theorem Iterate_returns_total_shift
    km centroids maxThreads schedule reduction out :
  team_reduction centroids reduction →
  Iterate km centroids maxThreads schedule reduction = Ok out →
  n_cols (newCentroids out) = n_cols centroids ∧
  float_sum (shifts (columns centroids) (columns (newCentroids out)))
            (cNorm out).
Proof.
  intros Hred Hout.
  pose proof (Iterate_newCentroids_cols _ _ _ _ _ _ Hout) as Hcols.
  split; [done|].
  rewrite (Iterate_cNorm _ _ _ _ _ _ Hout).
  by apply distortion_shifts.
Qed.

Lemma Iterate_returns_total_shift_witness :
  n_cols (Mat 1 [[2%float]; [0%float]]) = n_cols line_centroids ∧
  float_sum (shifts (columns line_centroids) [[2%float]; [0%float]]) 4%float.
Proof.
  eapply (Iterate_returns_total_shift
            (NaiveKMeans_new midway_dataset) line_centroids 1 [0] two_threads
            {| newCentroids := Mat 1 [[2%float]; [0%float]];
               counts := [100; 0];
               cNorm := 4%float;
               kernel := count_distances (NaiveKMeans_new midway_dataset)
                                         2 100 |}).
  - split; [apply Permutation_swap|reflexivity].
  - vm_compute. reflexivity.
Defined.

(** C6.  In a call that returns, the new centroid of a cluster with a
    positive count is the column of sums that the merge left, divided by
    that count; the new centroid of a cluster with count zero is the
    column the merge left, which is the zero vector. *)
Theorem Iterate_normalizes km centroids maxThreads schedule reduction out :
  Iterate km centroids maxThreads schedule reduction = Ok out →
  ∃ acc,
    merged km centroids maxThreads schedule = Ok acc ∧
    counts out = cnts acc ∧
    ∀ j, j < n_cols centroids →
      (0 < nth j (counts out) 0 →
       col (newCentroids out) j
       = vdiv (nth j (sums acc) []) (double_of_size (nth j (counts out) 0))) ∧
      (nth j (counts out) 0 = 0 →
       col (newCentroids out) j = nth j (sums acc) [] ∧
       col (newCentroids out) j = replicate (n_rows (dataset km)) 0%float).
Proof.
  intros (_ & _ & acc & Hacc & ->)%Iterate_inv.
  exists acc. split; [done|]. split; [done|].
  apply parallel_region_Ok in Hacc as (_ & (Hlen & Hlen' & Hzero) & _).
  intros j Hj. unfold col. cbn [newCentroids counts columns].
  rewrite normalize_nth by done. split.
  - intros Hpos. by rewrite decide_True.
  - intros H0. rewrite decide_False by lia. split; [done|].
    apply nth_lookup_Some, Hzero.
    destruct (nth_lookup_or_length (cnts acc) j 0) as [Hl|]; [|lia].
    by rewrite Hl, H0.
Qed.

Lemma Iterate_normalizes_witness :
  ∃ acc,
    merged (NaiveKMeans_new midway_dataset) line_centroids 1 [0] = Ok acc ∧
    [100; 0] = cnts acc ∧
    ∀ j, j < n_cols line_centroids →
      (0 < nth j [100; 0] 0 →
       col (Mat 1 [[2%float]; [0%float]]) j
       = vdiv (nth j (sums acc) []) (double_of_size (nth j [100; 0] 0))) ∧
      (nth j [100; 0] 0 = 0 →
       col (Mat 1 [[2%float]; [0%float]]) j = nth j (sums acc) [] ∧
       col (Mat 1 [[2%float]; [0%float]]) j
       = replicate (n_rows (dataset (NaiveKMeans_new midway_dataset)))
                   0%float).
Proof.
  eapply (Iterate_normalizes
            (NaiveKMeans_new midway_dataset) line_centroids 1 [0]
            (one_thread 2)
            {| newCentroids := Mat 1 [[2%float]; [0%float]];
               counts := [100; 0];
               cNorm := 4%float;
               kernel := count_distances (NaiveKMeans_new midway_dataset)
                                         2 100 |}).
  vm_compute. reflexivity.
Defined.

(** C7 (the code departs from the claim).  The claim wants a call with no
    points or no clusters to return empty outputs.  No such call returns.
    With fewer than [minVectorsPerThread] points, and so with none, the
    effective thread count is zero and line 57 divides by it.  With that
    many points but no clusters, the first point keeps the sentinel index
    [clusters] and lines 94-95 index a matrix that has no column. *)
Theorem empty_input_faults km centroids maxThreads schedule reduction :
  n_cols (dataset km) = 0 ∨ n_cols centroids = 0 →
  Iterate km centroids maxThreads schedule reduction
  = Fault (if decide (n_cols (dataset km) < minVectorsPerThread)
           then DivisionByZero else IndexOutOfBounds).
Proof.
  intros Hempty.
  destruct (decide (n_cols (dataset km) < minVectorsPerThread)) as [Hlt|Hge].
  { by apply Iterate_small. }
  destruct Hempty as [HN|HK]; [unfold minVectorsPerThread in Hge; lia|].
  destruct (Iterate km centroids maxThreads schedule reduction)
    as [out|[]] eqn:Hout; [| |done].
  - pose proof (Iterate_assigns_all _ _ _ _ _ _ 0 Hout) as Hc.
    unfold minVectorsPerThread in Hge. lia.
  - by rewrite Iterate_small_iff in Hout.
Qed.

Lemma empty_input_faults_witness :
  Iterate (NaiveKMeans_new empty_dataset) line_centroids 1 [0] (one_thread 2)
  = Fault DivisionByZero.
Proof.
  apply (empty_input_faults (NaiveKMeans_new empty_dataset) line_centroids
                            1 [0] (one_thread 2)).
  left. reflexivity.
Defined.

(** C8 (the code departs from the claim).  On the four points and two
    centroids of the scenario the claim expects the assignment 0, 0, 1, 1,
    the new centroids (0, 0.5) and (5, 5.5), the counts 2, 2 and the shift
    1.  The search does assign 0, 0, 1, 1, and lines 59-125 run by a team of
    one thread over a segment of four do produce these values; but the call
    itself does not get there: 4 / 100 is zero threads and line 57 divides
    by it. *)
Theorem scenario_faults maxThreads schedule reduction :
  Iterate (NaiveKMeans_new scenario_dataset) scenario_centroids
          maxThreads schedule reduction
  = Fault DivisionByZero ∧
  assigned (NaiveKMeans_new scenario_dataset) scenario_centroids <$> seq 0 4
  = [0; 0; 1; 1] ∧
  Iterate_team (NaiveKMeans_new scenario_dataset) scenario_centroids
               (centroidNorms_of scenario_centroids) 1 4 [0] (one_thread 2)
  = Ok {| newCentroids := Mat 2 [[0; 0.5]; [5; 5.5]]%float;
          counts := [2; 2];
          cNorm := 1%float;
          kernel := {| dataset := scenario_dataset;
                       distanceCalculations := 8 |} |}.
Proof.
  split; [|split].
  - apply Iterate_small. vm_compute. lia.
  - vm_compute. reflexivity.
  - vm_compute. reflexivity.
Qed.




(** C10.  Take a dataset of at least [minVectorsPerThread] points and at
    least one centroid, and two runs of the call on it that differ in the
    number of threads and in the order of the critical sections.  If one
    run returns, so does the other, and their counts are the same list. *)
Theorem counts_independent_of_team
    km centroids maxThreads1 schedule1 reduction1
    maxThreads2 schedule2 reduction2 out1 :
  minVectorsPerThread ≤ n_cols (dataset km) →
  0 < n_cols centroids →
  team_schedule km maxThreads1 schedule1 →
  team_schedule km maxThreads2 schedule2 →
  Iterate km centroids maxThreads1 schedule1 reduction1 = Ok out1 →
  ∃ out2, Iterate km centroids maxThreads2 schedule2 reduction2 = Ok out2 ∧
          counts out2 = counts out1.
Proof.
  intros HN HK Hsched1 Hsched2 Hout1.
  destruct (Iterate_complete km centroids maxThreads2 schedule2 reduction2 HN)
    as [out2 Hout2].
  { intros i Hi. by eapply Iterate_assigns_all. }
  exists out2. split; [done|].
  rewrite (Iterate_counts _ _ _ _ _ _ Hsched1 Hout1).
  by rewrite (Iterate_counts _ _ _ _ _ _ Hsched2 Hout2).
Qed.

Lemma counts_independent_of_team_witness :
  ∃ out2, Iterate (NaiveKMeans_new line_dataset) line_centroids 2 [1; 0]
                  two_threads
          = Ok out2 ∧
          counts out2 = [150; 100].
Proof.
  eapply (counts_independent_of_team
            (NaiveKMeans_new line_dataset) line_centroids
            1 [0] (one_thread 2) 2 [1; 0] two_threads
            {| newCentroids := line_centroids;
               counts := [150; 100];
               cNorm := 0%float;
               kernel := count_distances (NaiveKMeans_new line_dataset)
                                         2 250 |}).
  - vm_compute. lia.
  - vm_compute. lia.
  - vm_compute. apply Permutation_refl.
  - vm_compute. apply Permutation_swap.
  - vm_compute. reflexivity.
Defined.

(** * Further properties of a call that returns *)

(** X1.  The new centroid of a cluster is the sum of the points assigned to it,
    as the threads add them up, divided by their number; a cluster that no
    point is assigned to gets the zero vector. *)
Theorem new_centroid_is_mean km centroids maxThreads schedule reduction out j :
  team_schedule km maxThreads schedule →
  Iterate km centroids maxThreads schedule reduction = Ok out →
  j < n_cols centroids →
  nth j (counts out) 0
  = tally (assigned km centroids) (seq 0 (n_cols (dataset km))) j ∧
  (0 < nth j (counts out) 0 →
   col (newCentroids out) j
   = vdiv (assigned_sum km centroids maxThreads schedule j)
          (double_of_size (nth j (counts out) 0))) ∧
  (nth j (counts out) 0 = 0 →
   col (newCentroids out) j = replicate (n_rows (dataset km)) 0%float).
Proof.
  intros Hsched Hout Hj.
  pose proof Hout as (_ & HT & acc & Hacc & ->)%Iterate_inv.
  pose proof (parallel_region_sums _ _ _ _ _ _ _ j Hacc
                (team_schedule_in_team _ _ _ Hsched) Hj) as Hsum.
  apply parallel_region_Ok in Hacc as (_ & (Hlen & Hlen' & Hzero) & Hcnt).
  unfold col. cbn [newCentroids counts columns].
  rewrite normalize_nth by done. split; [|split].
  - rewrite Hcnt by done. by rewrite segments_partition.
  - intros Hpos. rewrite decide_True by done.
    by rewrite (nth_lookup_Some _ _ [] _ Hsum).
  - intros H0. rewrite decide_False by lia.
    apply nth_lookup_Some, Hzero.
    destruct (nth_lookup_or_length (cnts acc) j 0) as [Hl|]; [|lia].
    by rewrite Hl, H0.
Qed.

Lemma new_centroid_is_mean_witness :
  nth 1 [150; 100] 0
  = tally (assigned (NaiveKMeans_new line_dataset) line_centroids)
          (seq 0 (n_cols (dataset (NaiveKMeans_new line_dataset)))) 1 ∧
  (0 < nth 1 [150; 100] 0 →
   col line_centroids 1
   = vdiv (assigned_sum (NaiveKMeans_new line_dataset) line_centroids
                        2 [1; 0] 1)
          (double_of_size (nth 1 [150; 100] 0))) ∧
  (nth 1 [150; 100] 0 = 0 →
   col line_centroids 1
   = replicate (n_rows (dataset (NaiveKMeans_new line_dataset))) 0%float).
Proof.
  apply (new_centroid_is_mean
           (NaiveKMeans_new line_dataset) line_centroids 2 [1; 0] two_threads
           {| newCentroids := line_centroids;
              counts := [150; 100];
              cNorm := 0%float;
              kernel := count_distances (NaiveKMeans_new line_dataset)
                                        2 250 |} 1).
  - vm_compute. apply Permutation_swap.
  - vm_compute. reflexivity.
  - vm_compute. lia.
Defined.

(** X2.  The segments of a team on at least [minVectorsPerThread] points are
    consecutive, do not overlap and leave no point out: put one after the
    other they are the indices [0, N). *)
Theorem team_segments_cover maxThreads points :
  minVectorsPerThread ≤ points →
  let effectiveThreads := effectiveThreads_of maxThreads points in
  concat (segment_of effectiveThreads (points / effectiveThreads) points
            <$> seq 0 effectiveThreads)
  = seq 0 points.
Proof.
  intros Hle. apply segments_partition. by apply effectiveThreads_pos.
Qed.

Lemma team_segments_cover_witness :
  concat (segment_of (effectiveThreads_of 8 250)
                     (250 / effectiveThreads_of 8 250) 250
            <$> seq 0 (effectiveThreads_of 8 250))
  = seq 0 250.
Proof.
  apply (team_segments_cover 8 250). vm_compute. lia.
Defined.

(** X3.  The counts of a call that returns add up to the number of points. *)
Lemma Iterate_counts_sum km centroids maxThreads schedule reduction out :
  team_schedule km maxThreads schedule →
  Iterate km centroids maxThreads schedule reduction = Ok out →
  sum_list (counts out) = n_cols (dataset km).
Proof.
  intros Hsched Hout.
  rewrite (Iterate_counts _ _ _ _ _ _ Hsched Hout). unfold cluster_sizes.
  rewrite sum_list_fmap_with.
  rewrite (tally_total _ _ (n_cols centroids)); [by rewrite length_seq|].
  apply Forall_seq. intros i Hi.
  apply (Iterate_assigns_all _ _ _ _ _ _ _ Hout). lia.
Qed.

Lemma Iterate_counts_sum_witness :
  sum_list [150; 100] = n_cols (dataset (NaiveKMeans_new line_dataset)).
Proof.
  apply (Iterate_counts_sum
           (NaiveKMeans_new line_dataset) line_centroids 2 [1; 0] two_threads
           {| newCentroids := line_centroids;
              counts := [150; 100];
              cNorm := 0%float;
              kernel := count_distances (NaiveKMeans_new line_dataset)
                                        2 250 |}).
  - vm_compute. apply Permutation_swap.
  - vm_compute. reflexivity.
Defined.

(** A call on at least [minVectorsPerThread] points returns when every
    point has a centroid at a computed distance below [DBL_MAX]. *)
Lemma Iterate_returns km centroids maxThreads schedule reduction :
  minVectorsPerThread ≤ n_cols (dataset km) →
  (∀ i, i < n_cols (dataset km) →
     ∃ j, j < n_cols centroids ∧
          (decomposed_distance km centroids i j <? DBL_MAX)%float = true) →
  ∃ out, Iterate km centroids maxThreads schedule reduction = Ok out.
Proof.
  intros HN Hall. apply Iterate_complete; [done|]. intros i Hi.
  destruct (Hall i Hi) as (j & Hj & Hlt).
  rewrite <- decomposed_distance_distTo in Hlt by done.
  by eapply closestCluster_resolves.
Qed.

Lemma Iterate_returns_witness :
  ∃ out, Iterate (NaiveKMeans_new midway_dataset) line_centroids 3 [0]
                 (one_thread 2)
         = Ok out.
Proof.
  apply (Iterate_returns (NaiveKMeans_new midway_dataset) line_centroids
                         3 [0] (one_thread 2)).
  - vm_compute. lia.
  - intros i Hi. exists 0. split; [vm_compute; lia|].
    assert (col (dataset (NaiveKMeans_new midway_dataset)) i = [2%float])
      as Hcol.
    { unfold col. apply nth_lookup_Some. cbn [dataset NaiveKMeans_new].
      unfold midway_dataset. cbn [columns].
      apply lookup_replicate_2. exact Hi. }
    unfold decomposed_distance. rewrite Hcol. vm_compute. reflexivity.
Defined.

(** In a call that returns, no centroid is closer to a point than the one
    of the cluster it is given. *)
Lemma Iterate_assigns_nearest
    km centroids maxThreads schedule reduction out i j :
  Iterate km centroids maxThreads schedule reduction = Ok out →
  i < n_cols (dataset km) → j < n_cols centroids →
  (decomposed_distance km centroids i j
   <? decomposed_distance km centroids i (assigned km centroids i))%float
  = false.
Proof.
  intros Hout Hi Hj.
  pose proof (Iterate_assigns_all _ _ _ _ _ _ _ Hout Hi) as Hc.
  rewrite <- !decomposed_distance_distTo by done.
  by apply closestCluster_minimal.
Qed.

(** X16.  Take a point [i] and at least one centroid whose computed
    distance to it is below [DBL_MAX].  The search of lines 70-91 then
    leaves a cluster index below [K], and no centroid is closer to the point
    than that cluster's, the distances being the decomposition
    [|x_i|^2 + |c_j|^2 - 2 x_i.c_j] in binary64, which the code evaluates
    from the point's norm and the cached centroid norms. *)
Theorem nearest_centroid_assigned km centroids i :
  (∃ j, j < n_cols centroids ∧
        (decomposed_distance km centroids i j <? DBL_MAX)%float = true) →
  assigned km centroids i < n_cols centroids ∧
  ∀ j, j < n_cols centroids →
    (decomposed_distance km centroids i j
     <? decomposed_distance km centroids i (assigned km centroids i))%float
    = false.
Proof.
  intros (j0 & Hj0 & Hlt).
  rewrite <- decomposed_distance_distTo in Hlt by done.
  pose proof (closestCluster_resolves _ _ _ _ Hj0 Hlt) as Hc.
  split; [done|]. intros j Hj.
  rewrite <- !decomposed_distance_distTo by done.
  by apply closestCluster_minimal.
Qed.

Lemma nearest_centroid_assigned_witness :
  assigned (NaiveKMeans_new line_dataset) line_centroids 200
  < n_cols line_centroids ∧
  ∀ j, j < n_cols line_centroids →
    (decomposed_distance (NaiveKMeans_new line_dataset) line_centroids 200 j
     <? decomposed_distance (NaiveKMeans_new line_dataset) line_centroids 200
          (assigned (NaiveKMeans_new line_dataset) line_centroids 200))%float
    = false.
Proof.
  apply (nearest_centroid_assigned
           (NaiveKMeans_new line_dataset) line_centroids 200).
  exists 1. split; [vm_compute; lia|]. vm_compute. reflexivity.
Defined.

(** A centroid at the same computed distance as the assigned one is never
    indexed below it: a later equal distance does not take the place of an
    earlier one. *)
Lemma equal_distance_not_before_assigned km centroids i j :
  assigned km centroids i < n_cols centroids →
  j < n_cols centroids →
  (decomposed_distance km centroids i j
   =? decomposed_distance km centroids i (assigned km centroids i))%float
  = true →
  assigned km centroids i ≤ j.
Proof.
  intros Hc Hj Heq.
  rewrite <- !decomposed_distance_distTo in Heq by done.
  by eapply closestCluster_first.
Qed.

(** A call that returns advances the diagnostic counter by [K * N], modulo
    the range of [size_t], and leaves the dataset of the kernel alone. *)
Lemma Iterate_counts_distances km centroids maxThreads schedule reduction out :
  Iterate km centroids maxThreads schedule reduction = Ok out →
  dataset (kernel out) = dataset km ∧
  distanceCalculations (kernel out)
  = ((distanceCalculations km
      + N.of_nat (n_cols centroids) * N.of_nat (n_cols (dataset km)))
     mod 2 ^ 64)%N.
Proof. by intros (_ & _ & acc & _ & ->)%Iterate_inv. Qed.

Lemma Iterate_counts_distances_witness :
  dataset (count_distances (NaiveKMeans_new line_dataset) 2 250)
  = dataset (NaiveKMeans_new line_dataset) ∧
  distanceCalculations (count_distances (NaiveKMeans_new line_dataset) 2 250)
  = ((distanceCalculations (NaiveKMeans_new line_dataset)
      + N.of_nat (n_cols line_centroids)
        * N.of_nat (n_cols (dataset (NaiveKMeans_new line_dataset))))
     mod 2 ^ 64)%N.
Proof.
  apply (Iterate_counts_distances
           (NaiveKMeans_new line_dataset) line_centroids 2 [1; 0] two_threads
           {| newCentroids := line_centroids;
              counts := [150; 100];
              cNorm := 0%float;
              kernel := count_distances (NaiveKMeans_new line_dataset)
                                        2 250 |}).
  vm_compute. reflexivity.
Defined.

(** * Further properties of the search *)

Section closest_bounds.
Context (centroids : mat) (centroidNorms : list float) (dataPoint : vec).

Local Abbreviation dataNorm := (dot dataPoint dataPoint).
Local Abbreviation d := (distTo centroids centroidNorms dataPoint dataNorm).
Local Abbreviation K := (n_cols centroids).
Local Abbreviation scan n :=
  (fold_left (closest_step centroids centroidNorms dataPoint dataNorm)
             (seq 0 n) (DBL_MAX, K)).

(** The running minimum is the initial [DBL_MAX] as long as the index is
    the sentinel, and strictly below it from then on. *)
Lemma scan_selected n :
  n ≤ K →
  ((scan n).2 = K ∧ (scan n).1 = DBL_MAX) ∨
  ((scan n).2 < n ∧ ((scan n).1 <? DBL_MAX)%float = true).
Proof.
  induction n as [|n IH]; [by left|]. intros Hn.
  rewrite scan_S.
  destruct (d n <? (scan n).1)%float eqn:Hlt; cbn [fst snd].
  - right. split; [lia|].
    destruct (IH ltac:(lia)) as [[_ Hmax]|[_ Hbelow]].
    + by rewrite <- Hmax.
    + by eapply ltb_trans.
  - destruct (IH ltac:(lia)) as [?|[? ?]]; [by left|]. right. split; [lia|done].
Qed.

Lemma closestCluster_le :
  closestCluster centroids centroidNorms dataPoint ≤ K.
Proof.
  unfold closestCluster, closest.
  destruct (scan_selected K (le_n _)) as [[-> _]|[? _]]; lia.
Qed.

Lemma closestCluster_below_max c :
  closestCluster centroids centroidNorms dataPoint = c → c < K →
  (d c <? DBL_MAX)%float = true.
Proof.
  unfold closestCluster, closest. intros <- Hc.
  destruct (scan_index centroids centroidNorms dataPoint K (le_n _))
    as [[? _]|(_ & <- & _)]; [lia|].
  destruct (scan_selected K (le_n _)) as [[? _]|[_ ?]]; [lia|done].
Qed.

Lemma closestCluster_sentinel j :
  closestCluster centroids centroidNorms dataPoint = K → j < K →
  (d j <? DBL_MAX)%float = false.
Proof.
  unfold closestCluster, closest. intros Hsent Hj.
  destruct (scan_selected K (le_n _)) as [[_ Hmax]|[? _]]; [|lia].
  rewrite <- Hmax. by apply scan_lower_bound.
Qed.

End closest_bounds.

(** A point is given a cluster exactly when one of its computed distances
    is below [DBL_MAX]. *)
Lemma assigned_iff km centroids i :
  assigned km centroids i < n_cols centroids ↔
  ∃ j, j < n_cols centroids ∧
       (decomposed_distance km centroids i j <? DBL_MAX)%float = true.
Proof.
  split.
  - intros Hc. exists (assigned km centroids i). split; [done|].
    rewrite <- decomposed_distance_distTo by done.
    by apply closestCluster_below_max.
  - intros (j & Hj & Hlt).
    rewrite <- decomposed_distance_distTo in Hlt by done.
    by eapply closestCluster_resolves.
Qed.

Lemma unassigned_iff km centroids i :
  assigned km centroids i = n_cols centroids ↔
  ∀ j, j < n_cols centroids →
       (decomposed_distance km centroids i j <? DBL_MAX)%float = false.
Proof.
  split.
  - intros Hc j Hj. rewrite <- decomposed_distance_distTo by done.
    by apply closestCluster_sentinel.
  - intros Hall.
    pose proof (closestCluster_le centroids (centroidNorms_of centroids)
                  (col (dataset km) i)) as Hle.
    destruct (decide (assigned km centroids i = n_cols centroids))
      as [|Hne]; [done|].
    assert (assigned km centroids i < n_cols centroids) as Hlt
      by (unfold assigned in *; lia).
    apply assigned_iff in Hlt as (j & Hj & Hlt).
    rewrite Hall in Hlt by done. done.
Qed.

(** ** How a call ends *)

(** X4.  The three ways a call can end, read off the inputs.  It divides by
    zero exactly when there are fewer than [minVectorsPerThread] points.
    Otherwise it returns exactly when every point has a centroid at a
    computed distance below [DBL_MAX], and it indexes out of range exactly
    when some point has none. *)
Theorem Iterate_outcome km centroids maxThreads schedule reduction :
  (Iterate km centroids maxThreads schedule reduction = Fault DivisionByZero ↔
   n_cols (dataset km) < minVectorsPerThread) ∧
  ((∃ out, Iterate km centroids maxThreads schedule reduction = Ok out) ↔
   minVectorsPerThread ≤ n_cols (dataset km) ∧
   ∀ i, i < n_cols (dataset km) →
     ∃ j, j < n_cols centroids ∧
          (decomposed_distance km centroids i j <? DBL_MAX)%float = true) ∧
  (Iterate km centroids maxThreads schedule reduction = Fault IndexOutOfBounds ↔
   minVectorsPerThread ≤ n_cols (dataset km) ∧
   ∃ i, i < n_cols (dataset km) ∧
     ∀ j, j < n_cols centroids →
          (decomposed_distance km centroids i j <? DBL_MAX)%float = false).
Proof.
  pose proof (Iterate_small_iff km centroids maxThreads schedule reduction)
    as Hdiv.
  assert ((∃ out, Iterate km centroids maxThreads schedule reduction = Ok out) ↔
          minVectorsPerThread ≤ n_cols (dataset km) ∧
          ∀ i, i < n_cols (dataset km) →
               assigned km centroids i < n_cols centroids) as Hok.
  { split.
    - intros [out Hout]. split.
      + by apply Iterate_inv in Hout as (? & _).
      + intros i Hi. by eapply Iterate_assigns_all.
    - intros [HN Hall]. by apply Iterate_complete. }
  split; [done|]. split.
  - rewrite Hok. split; intros [HN Hall]; (split; [done|]); intros i Hi.
    + by apply assigned_iff, Hall.
    + by apply assigned_iff, Hall.
  - split.
    + intros Hoob.
      assert (minVectorsPerThread ≤ n_cols (dataset km)) as HN.
      { destruct (decide (n_cols (dataset km) < minVectorsPerThread))
          as [Hlt|]; [|lia].
        apply Hdiv in Hlt. congruence. }
      split; [done|].
      destruct (decide (Forall (λ i, assigned km centroids i
                                     < n_cols centroids)
                               (seq 0 (n_cols (dataset km)))))
        as [Hall|Hex].
      * destruct (proj2 Hok) as [out Hout]; [|congruence].
        split; [done|]. intros i Hi. rewrite Forall_seq in Hall.
        apply Hall. lia.
      * apply not_Forall_Exists in Hex; [|apply _].
        apply Exists_exists in Hex as (i & Hi%elem_of_seq & Hunas).
        exists i. split; [lia|]. apply unassigned_iff.
        pose proof (closestCluster_le centroids (centroidNorms_of centroids)
                      (col (dataset km) i)).
        unfold assigned in *. simpl in Hunas. lia.
    + intros (HN & i & Hi & Hnone).
      apply unassigned_iff in Hnone.
      destruct (Iterate km centroids maxThreads schedule reduction)
        as [out|[]] eqn:Hout; [| |done].
      * pose proof (Iterate_assigns_all _ _ _ _ _ _ _ Hout Hi). lia.
      * apply Iterate_small_iff in Hout. lia.
Qed.

(** ** Clusters that stay empty *)

Lemma tally_none cl pts j :
  Forall (λ i, cl i ≠ j) pts → tally cl pts j = 0.
Proof.
  induction 1 as [|i pts Hi _ IH]; [done|].
  rewrite tally_cons, IH. by rewrite decide_False.
Qed.

Lemma Iterate_count_nth km centroids maxThreads schedule reduction out j :
  team_schedule km maxThreads schedule →
  Iterate km centroids maxThreads schedule reduction = Ok out →
  j < n_cols centroids →
  nth j (counts out) 0
  = tally (assigned km centroids) (seq 0 (n_cols (dataset km))) j.
Proof.
  intros Hsched Hout Hj.
  rewrite (Iterate_counts _ _ _ _ _ _ Hsched Hout). unfold cluster_sizes.
  apply nth_lookup_Some.
  rewrite list_lookup_fmap, lookup_seq_lt by done. done.
Qed.

Lemma Iterate_zero_count_column
    km centroids maxThreads schedule reduction out j :
  Iterate km centroids maxThreads schedule reduction = Ok out →
  j < n_cols centroids →
  nth j (counts out) 0 = 0 →
  col (newCentroids out) j = replicate (n_rows (dataset km)) 0%float.
Proof.
  intros (_ & _ & acc & Hacc & ->)%Iterate_inv Hj.
  apply parallel_region_Ok in Hacc as (_ & (Hlen & Hlen' & Hzero) & _).
  unfold col. cbn [newCentroids counts columns]. intros H0.
  rewrite normalize_nth by done. rewrite decide_False by lia.
  apply nth_lookup_Some, Hzero.
  destruct (nth_lookup_or_length (cnts acc) j 0) as [Hl|]; [|lia].
  by rewrite Hl, H0.
Qed.

(** A cluster that no point of the dataset is assigned to ends with count
    zero and the zero vector as its new centroid. *)
Lemma Iterate_empty_cluster km centroids maxThreads schedule reduction out j :
  team_schedule km maxThreads schedule →
  Iterate km centroids maxThreads schedule reduction = Ok out →
  j < n_cols centroids →
  (∀ i, i < n_cols (dataset km) → assigned km centroids i ≠ j) →
  nth j (counts out) 0 = 0 ∧
  col (newCentroids out) j = replicate (n_rows (dataset km)) 0%float.
Proof.
  intros Hsched Hout Hj Hnone.
  assert (nth j (counts out) 0 = 0) as H0.
  { rewrite (Iterate_count_nth _ _ _ _ _ _ _ Hsched Hout Hj).
    apply tally_none, Forall_seq. intros i Hi. apply Hnone. lia. }
  split; [done|]. by eapply Iterate_zero_count_column.
Qed.

Lemma SFltb_self_eqb a b : SFltb a b = true → SFeqb a a = true.
Proof.
  unfold SFltb, SFeqb. destruct a as [[]|[]| |[] m e]; simpl; try done;
    try (by destruct b as [[]|[]| |[] ? ?]);
    rewrite Z.compare_refl, Pos.compare_cont_refl; done.
Qed.

Lemma ltb_self_eqb (a b : float) :
  (a <? b)%float = true → (a =? a)%float = true.
Proof.
  rewrite FloatAxioms.ltb_spec, FloatAxioms.eqb_spec. apply SFltb_self_eqb.
Qed.

(** X9.  Of two centroids at the same place only the first attracts points: in
    a call that returns, the cluster of the later one has count zero and
    its new centroid is the zero vector. *)
Theorem duplicate_centroid_is_emptied
    km centroids maxThreads schedule reduction out j1 j2 :
  team_schedule km maxThreads schedule →
  Iterate km centroids maxThreads schedule reduction = Ok out →
  j1 < j2 → j2 < n_cols centroids →
  col centroids j1 = col centroids j2 →
  nth j2 (counts out) 0 = 0 ∧
  col (newCentroids out) j2 = replicate (n_rows (dataset km)) 0%float.
Proof.
  intros Hsched Hout Hlt Hj2 Hsame.
  apply (Iterate_empty_cluster _ _ _ _ _ _ _ Hsched Hout Hj2).
  intros i Hi Hassigned.
  assert ((decomposed_distance km centroids i j2 <? DBL_MAX)%float = true)
    as Hbelow.
  { rewrite <- decomposed_distance_distTo by done.
    apply closestCluster_below_max; [exact Hassigned|done]. }
  assert (decomposed_distance km centroids i j1
          = decomposed_distance km centroids i j2) as Hdist.
  { unfold decomposed_distance. by rewrite Hsame. }
  pose proof (equal_distance_not_before_assigned km centroids i j1) as Hfirst.
  rewrite Hassigned, Hdist in Hfirst.
  specialize (Hfirst Hj2 ltac:(lia) (ltb_self_eqb _ _ Hbelow)). lia.
Qed.

Lemma duplicate_centroid_is_emptied_witness :
  nth 1 [100; 0] 0 = 0 ∧
  col (Mat 1 [[2%float]; [0%float]]) 1
  = replicate (n_rows (dataset (NaiveKMeans_new midway_dataset))) 0%float.
Proof.
  apply (duplicate_centroid_is_emptied
           (NaiveKMeans_new midway_dataset) twin_centroids 1 [0]
           (one_thread 2)
           {| newCentroids := Mat 1 [[2%float]; [0%float]];
              counts := [100; 0];
              cNorm := 2%float;
              kernel := count_distances (NaiveKMeans_new midway_dataset)
                                        2 100 |} 0 1).
  - vm_compute. apply Permutation_refl.
  - vm_compute. reflexivity.
  - lia.
  - vm_compute. lia.
  - reflexivity.
Defined.

(** ** One cluster *)

Lemma tally_all cl pts j :
  Forall (λ i, cl i = j) pts → tally cl pts j = length pts.
Proof.
  induction 1 as [|i pts Hi _ IH]; [done|].
  rewrite tally_cons, IH. by rewrite decide_True.
Qed.

(** X13.  With a single centroid a call that returns counts every point in
    cluster 0. *)
Theorem single_cluster_counts km centroids maxThreads schedule reduction out :
  team_schedule km maxThreads schedule →
  Iterate km centroids maxThreads schedule reduction = Ok out →
  n_cols centroids = 1 →
  counts out = [n_cols (dataset km)].
Proof.
  intros Hsched Hout HK.
  rewrite (Iterate_counts _ _ _ _ _ _ Hsched Hout). unfold cluster_sizes.
  rewrite HK. cbn [seq map]. f_equal.
  rewrite tally_all; [by rewrite length_seq|].
  apply Forall_seq. intros i Hi.
  pose proof (Iterate_assigns_all _ _ _ _ _ _ i Hout). lia.
Qed.

Lemma single_cluster_counts_witness :
  [100] = [n_cols (dataset (NaiveKMeans_new midway_dataset))].
Proof.
  eapply (single_cluster_counts
            (NaiveKMeans_new midway_dataset) (Mat 1 [[1%float]]) 1 [0]
            (one_thread 1)
            {| newCentroids := Mat 1 [[2%float]];
               counts := [100];
               cNorm := 1%float;
               kernel := count_distances (NaiveKMeans_new midway_dataset)
                                         1 100 |}).
  - vm_compute. apply Permutation_refl.
  - vm_compute. reflexivity.
  - reflexivity.
Defined.

(** ** The size of the team and of its segments *)

(** X12.  On at least [minVectorsPerThread] points the team has between one and
    [numThreads] threads, and every thread of it is given at least
    [minVectorsPerThread] points. *)
Theorem team_segments_large maxThreads points t :
  minVectorsPerThread ≤ points →
  t < effectiveThreads_of maxThreads points →
  1 ≤ effectiveThreads_of maxThreads points ≤ numThreads_of maxThreads ∧
  minVectorsPerThread
  ≤ length (segment_of (effectiveThreads_of maxThreads points)
                       (points / effectiveThreads_of maxThreads points)
                       points t).
Proof.
  intros HN Ht.
  pose proof (effectiveThreads_pos maxThreads points HN) as Hpos.
  set (T := effectiveThreads_of maxThreads points) in *.
  assert (T ≤ numThreads_of maxThreads ∧ T ≤ points / minVectorsPerThread)
    as [Hmax Hdiv] by (subst T; unfold effectiveThreads_of; lia).
  split; [lia|].
  assert (T * minVectorsPerThread ≤ points) as Hfit.
  { pose proof (Nat.Div0.mul_div_le points minVectorsPerThread). nia. }
  assert (minVectorsPerThread ≤ points / T) as Hseg.
  { apply Nat.div_le_lower_bound; lia. }
  pose proof (Nat.Div0.mul_div_le points T) as Hle.
  destruct (decide (t = T - 1)) as [->|Hne].
  - rewrite segment_of_last, length_seq. nia.
  - rewrite segment_of_inner, length_seq by done. done.
Qed.

Lemma team_segments_large_witness :
  1 ≤ effectiveThreads_of 8 250 ≤ numThreads_of 8 ∧
  minVectorsPerThread
  ≤ length (segment_of (effectiveThreads_of 8 250)
                       (250 / effectiveThreads_of 8 250) 250 1).
Proof.
  apply (team_segments_large 8 250 1); vm_compute; lia.
Defined.

(** ** The order of the points *)

Lemma tally_fmap cl (g : nat → nat) pts j :
  tally cl (g <$> pts) j = tally (λ i, cl (g i)) pts j.
Proof.
  induction pts as [|i pts IH]; [done|].
  rewrite fmap_cons, !tally_cons, IH. done.
Qed.

(** The tally over the indices of a list is a count over its elements. *)
Lemma tally_nth (f : vec → nat) (l : list vec) j :
  tally (λ i, f (nth i l [])) (seq 0 (length l)) j
  = length (filter (λ x, f x = j) l).
Proof.
  induction l as [|x l IH]; [done|].
  cbn [length seq]. rewrite <- fmap_S_seq, tally_cons, tally_fmap.
  cbn [nth]. rewrite IH, filter_cons.
  by destruct (decide (f x = j)).
Qed.

Lemma cluster_sizes_columns km centroids :
  cluster_sizes km centroids
  = (λ j, length (filter
                    (λ x, closestCluster centroids (centroidNorms_of centroids)
                                         x = j)
                    (columns (dataset km))))
    <$> seq 0 (n_cols centroids).
Proof.
  unfold cluster_sizes. apply list_fmap_ext. intros _ j _.
  unfold assigned, col, n_cols.
  apply (tally_nth (closestCluster centroids (centroidNorms_of centroids))).
Qed.

Lemma all_assigned_columns km centroids :
  (∀ i, i < n_cols (dataset km) →
        assigned km centroids i < n_cols centroids) ↔
  Forall (λ x, closestCluster centroids (centroidNorms_of centroids) x
               < n_cols centroids)
         (columns (dataset km)).
Proof.
  rewrite Forall_lookup. unfold assigned, col, n_cols. split.
  - intros Hall i x Hx. rewrite <- (nth_lookup_Some _ _ [] _ Hx).
    apply Hall. by eapply lookup_lt_Some.
  - intros Hall i Hi.
    destruct (lookup_lt_is_Some_2 _ _ Hi) as [x Hx].
    rewrite (nth_lookup_Some _ _ [] _ Hx). by eapply Hall.
Qed.

(** X10.  The counts do not depend on the order in which the dataset lists its
    points: if a call returns, so does a call on the same points in any
    other order, with any team, and the counts are the same. *)
Theorem counts_invariant_under_reordering
    km1 km2 centroids maxThreads1 schedule1 reduction1
    maxThreads2 schedule2 reduction2 out1 :
  columns (dataset km2) ≡ₚ columns (dataset km1) →
  team_schedule km1 maxThreads1 schedule1 →
  team_schedule km2 maxThreads2 schedule2 →
  Iterate km1 centroids maxThreads1 schedule1 reduction1 = Ok out1 →
  ∃ out2, Iterate km2 centroids maxThreads2 schedule2 reduction2 = Ok out2 ∧
          counts out2 = counts out1.
Proof.
  intros Hperm Hsched1 Hsched2 Hout1.
  assert (n_cols (dataset km2) = n_cols (dataset km1)) as HN.
  { unfold n_cols. by rewrite Hperm. }
  destruct (Iterate_complete km2 centroids maxThreads2 schedule2 reduction2)
    as [out2 Hout2].
  - rewrite HN. by apply Iterate_inv in Hout1 as (? & _).
  - apply all_assigned_columns. rewrite Hperm. apply all_assigned_columns.
    intros i Hi. by eapply Iterate_assigns_all.
  - exists out2. split; [done|].
    rewrite (Iterate_counts _ _ _ _ _ _ Hsched1 Hout1).
    rewrite (Iterate_counts _ _ _ _ _ _ Hsched2 Hout2).
    rewrite !cluster_sizes_columns. apply list_fmap_ext. intros _ j _.
    by rewrite Hperm.
Qed.

Lemma counts_invariant_under_reordering_witness :
  ∃ out2, Iterate (NaiveKMeans_new line_dataset_reordered) line_centroids
                  2 [1; 0] two_threads
          = Ok out2 ∧
          counts out2 = [150; 100].
Proof.
  eapply (counts_invariant_under_reordering
            (NaiveKMeans_new line_dataset)
            (NaiveKMeans_new line_dataset_reordered)
            line_centroids 1 [0] (one_thread 2) 2 [1; 0] two_threads
            {| newCentroids := line_centroids;
               counts := [150; 100];
               cNorm := 0%float;
               kernel := count_distances (NaiveKMeans_new line_dataset)
                                         2 250 |}).
  - apply Permutation_app_comm.
  - vm_compute. apply Permutation_refl.
  - vm_compute. apply Permutation_swap.
  - vm_compute. reflexivity.
Defined.

(** ** The shape of the outputs *)

Lemma vadd_length (a b : vec) dims :
  length a = dims → length b = dims → length (vadd a b) = dims.
Proof. intros Ha Hb. unfold vadd. rewrite length_zip_with_l_eq; congruence. Qed.

Lemma accumulate_lengths dims a c x a' :
  Forall (λ column, length column = dims) (sums a) →
  length x = dims →
  accumulate a c x = Ok a' →
  Forall (λ column, length column = dims) (sums a').
Proof.
  intros Hall Hx. unfold accumulate.
  destruct (decide (c < length (sums a))); [|done].
  destruct (decide (c < length (cnts a))); [|done].
  intros [= <-]. cbn [sums]. apply Forall_alter; [done|].
  intros column _ Hcol. by apply vadd_length.
Qed.

Lemma point_fold_lengths data centroids norms pts a a' :
  Forall (λ column, length column = n_rows data) (sums a) →
  Forall (λ i, length (col data i) = n_rows data) pts →
  fold_left (point_step data centroids norms) pts (Ok a) = Ok a' →
  Forall (λ column, length column = n_rows data) (sums a').
Proof.
  intros Ha Hpts. revert a Ha.
  induction Hpts as [|i pts Hi _ IH]; intros a Ha; simpl.
  - by intros [= <-].
  - destruct (accumulate a _ (col data i)) as [a1|f] eqn:Hacc.
    + apply IH. by eapply accumulate_lengths.
    + by rewrite point_fold_Fault.
Qed.

Lemma combine_lengths dims shared localAcc :
  Forall (λ column, length column = dims) (sums shared) →
  Forall (λ column, length column = dims) (sums localAcc) →
  Forall (λ column, length column = dims) (sums (combine shared localAcc)).
Proof.
  intros Hs Hl. unfold combine. cbn [sums].
  apply Forall_lookup. intros j column Hj.
  apply lookup_zip_with_Some in Hj as (x & y & -> & Hx & Hy).
  apply vadd_length.
  - by eapply Forall_lookup_1 in Hs.
  - by eapply Forall_lookup_1 in Hl.
Qed.

Lemma merge_lengths dims locals schedule shared :
  Forall (λ a, Forall (λ column, length column = dims) (sums a)) locals →
  Forall (λ column, length column = dims) (sums shared) →
  Forall (λ column, length column = dims)
         (sums (fold_left (merge_thread locals) schedule shared)).
Proof.
  intros Hlocals. revert shared.
  induction schedule as [|t schedule IH]; intros shared Hshared; [done|].
  simpl. apply IH. unfold merge_thread.
  destruct (locals !! t) as [a|] eqn:Ht; [|done].
  apply combine_lengths; [done|]. by eapply Forall_lookup_1 in Hlocals.
Qed.

Lemma normalize_lengths dims K acc :
  Forall (λ column, length column = dims) (sums acc) →
  Forall (λ column, length column = dims) (normalize K acc).
Proof.
  intros Hall. unfold normalize.
  induction K as [|K IH]; [done|].
  rewrite seq_0_S, fold_left_app. cbn [fold_left]. unfold normalize_step at 1.
  destruct (decide (0 < nth K (cnts acc) 0)); [|done].
  apply Forall_alter; [done|]. intros column _ Hcol.
  unfold vdiv. by rewrite length_map.
Qed.

Lemma parallel_region_lengths data centroids norms T seg schedule acc :
  Forall (λ i, length (col data i) = n_rows data)
         (concat (segment_of T seg (n_cols data) <$> seq 0 T)) →
  parallel_region data centroids norms T seg schedule = Ok acc →
  Forall (λ column, length column = n_rows data) (sums acc).
Proof.
  intros Hpts%Forall_concat. rewrite Forall_fmap in Hpts.
  unfold parallel_region.
  intros (locals & Hlocals%mapM_Ok & [= <-])%bind_Ok.
  apply merge_lengths.
  - apply Forall_lookup. intros t a Ha.
    destruct (Forall2_lookup_r _ _ _ _ _ Hlocals Ha) as (t' & Ht' & Ht).
    eapply point_fold_lengths; [| |exact Ht].
    + cbn [zero_accum sums]. unfold zeros_mat.
      apply Forall_replicate. by rewrite length_replicate.
    + by eapply Forall_lookup_1 in Hpts.
  - cbn [zero_accum sums]. unfold zeros_mat.
    apply Forall_replicate. by rewrite length_replicate.
Qed.

(** X11.  On a dataset all of whose points have [n_rows] coordinates, a call
    that returns leaves a full matrix of new centroids, as many rows as the
    dataset has and one column of that length per centroid, and one count
    per centroid. *)
Theorem Iterate_output_shape km centroids maxThreads schedule reduction out :
  Forall (λ x, length x = n_rows (dataset km)) (columns (dataset km)) →
  Iterate km centroids maxThreads schedule reduction = Ok out →
  n_rows (newCentroids out) = n_rows (dataset km) ∧
  n_cols (newCentroids out) = n_cols centroids ∧
  Forall (λ column, length column = n_rows (dataset km))
         (columns (newCentroids out)) ∧
  length (counts out) = n_cols centroids.
Proof.
  intros Hwf Hout.
  pose proof (Iterate_newCentroids_cols _ _ _ _ _ _ Hout) as Hcols.
  apply Iterate_inv in Hout as (_ & HT & acc & Hacc & ->).
  cbn [newCentroids counts n_rows columns] in *.
  split; [done|]. split; [done|]. split.
  - apply normalize_lengths.
    eapply parallel_region_lengths; [|exact Hacc].
    rewrite segments_partition by done. apply Forall_seq. intros i Hi.
    unfold col.
    destruct (lookup_lt_is_Some_2 (columns (dataset km)) i) as [x Hx];
      [unfold n_cols in Hi; lia|].
    rewrite (nth_lookup_Some _ _ [] _ Hx).
    by eapply Forall_lookup_1 in Hwf.
  - by apply parallel_region_Ok in Hacc as (_ & (_ & ? & _) & _).
Qed.

Lemma Iterate_output_shape_witness :
  n_rows line_centroids = n_rows (dataset (NaiveKMeans_new line_dataset)) ∧
  n_cols line_centroids = n_cols line_centroids ∧
  Forall (λ column, length column
                    = n_rows (dataset (NaiveKMeans_new line_dataset)))
         (columns line_centroids) ∧
  length [150; 100] = n_cols line_centroids.
Proof.
  apply (Iterate_output_shape
           (NaiveKMeans_new line_dataset) line_centroids 2 [1; 0] two_threads
           {| newCentroids := line_centroids;
              counts := [150; 100];
              cNorm := 0%float;
              kernel := count_distances (NaiveKMeans_new line_dataset)
                                        2 250 |}).
  - apply Forall_app. split; by apply Forall_replicate.
  - vm_compute. reflexivity.
Defined.

(** ** The sign of the returned value *)

Lemma round_aux_not_negative m e l :
  SFltb (binary_round_aux prec emax false m e l) (S754_zero false) = false.
Proof.
  unfold binary_round_aux.
  destruct (shr_fexp prec emax m e l) as [mrs' e'].
  destruct (shr_fexp prec emax _ e' loc_Exact) as [mrs'' e''].
  destruct (shr_m mrs''); [done| |done].
  by destruct (Z.leb e'' (emax - prec)).
Qed.

Lemma round_not_negative m e :
  SFltb (binary_round prec emax false m e) (S754_zero false) = false.
Proof.
  unfold binary_round. destruct (shl_align m e _) as [mz ez].
  apply round_aux_not_negative.
Qed.

Lemma SFadd_not_negative x y :
  SFltb x (S754_zero false) = false →
  SFltb y (S754_zero false) = false →
  SFltb (SFadd prec emax x y) (S754_zero false) = false.
Proof.
  destruct x as [[]|[]| |[] mx ex], y as [[]|[]| |[] my ey];
    try done.
  intros _ _. unfold SFadd. cbn [cond_Zopp Z.add].
  apply round_not_negative.
Qed.

Lemma SFsqrt_not_negative x :
  SFltb (SFsqrt prec emax x) (S754_zero false) = false.
Proof.
  destruct x as [[]|[]| |[] mx ex]; try done.
  unfold SFsqrt. destruct (SFsqrt_core_binary _ _ _ _) as [[mz ez] lz].
  apply round_aux_not_negative.
Qed.

Lemma add_not_negative (a b : float) :
  (a <? 0)%float = false → (b <? 0)%float = false →
  (a + b <? 0)%float = false.
Proof.
  rewrite !FloatAxioms.ltb_spec, FloatAxioms.add_spec.
  apply SFadd_not_negative.
Qed.

Lemma norm2_not_negative (v : vec) : (norm2 v <? 0)%float = false.
Proof.
  unfold norm2. rewrite FloatAxioms.ltb_spec, FloatAxioms.sqrt_spec.
  apply SFsqrt_not_negative.
Qed.

(** No partial sum of the reduction is below zero, however the runtime
    groups and orders them. *)
Lemma distortion_not_negative centroids (newCols : list vec) reduction :
  (distortion centroids newCols reduction <? 0)%float = false.
Proof.
  induction reduction as [|first count|a IHa b IHb]; cbn [distortion].
  - done.
  - assert (∀ js acc, (acc <? 0)%float = false →
      (fold_left
         (λ cNorm j,
            (cNorm + norm2 (vsub (col centroids j) (nth j newCols [])))%float)
         js acc <? 0)%float = false) as Hfold.
    { induction js as [|j js IH]; intros acc Hacc; [done|].
      simpl. apply IH, add_not_negative; [done|apply norm2_not_negative]. }
    by apply Hfold.
  - by apply add_not_negative.
Qed.

(** X14.  The value a call returns is never below zero (it can be a NaN),
    whatever the team of the reduction and the order in which it adds. *)
Theorem Iterate_shift_not_negative
    km centroids maxThreads schedule reduction out :
  Iterate km centroids maxThreads schedule reduction = Ok out →
  (cNorm out <? 0)%float = false.
Proof.
  intros Hout. rewrite (Iterate_cNorm _ _ _ _ _ _ Hout).
  apply distortion_not_negative.
Qed.

Lemma Iterate_shift_not_negative_witness : (4 <? 0)%float = false.
Proof.
  apply (Iterate_shift_not_negative
           (NaiveKMeans_new midway_dataset) line_centroids 1 [0] two_threads
           {| newCentroids := Mat 1 [[2%float]; [0%float]];
              counts := [100; 0];
              cNorm := 4%float;
              kernel := count_distances (NaiveKMeans_new midway_dataset)
                                        2 100 |}).
  vm_compute. reflexivity.
Defined.

(** ** Infinities and NaNs in the inputs *)

Lemma nonfinite_spec (x : float) :
  is_finite x = false →
  Prim2SF x = S754_nan ∨ ∃ s, Prim2SF x = S754_infinity s.
Proof.
  unfold is_finite, is_nan, is_infinity.
  rewrite !FloatAxioms.eqb_spec, FloatAxioms.abs_spec.
  destruct (Prim2SF x) as [[]|s| |[] m e]; eauto; unfold SFeqb; simpl;
    try done; rewrite Z.compare_refl, Pos.compare_cont_refl; done.
Qed.

Lemma sf_top_ltb s m : sf_top s → SFltb s m = false.
Proof. intros [-> | ->]; [done|]. by destruct m as [[]|[]| |[] ? ?]. Qed.

Lemma SFmul_self_nonneg s : sf_nonneg (SFmul prec emax s s).
Proof.
  destruct s as [[]|[]| |[] m e]; try done;
    unfold SFmul; cbn [xorb]; apply round_aux_not_negative.
Qed.

Lemma SFmul_self_top s :
  s = S754_nan ∨ (∃ sg, s = S754_infinity sg) → sf_top (SFmul prec emax s s).
Proof. intros [->|[[] ->]]; [by left|by right..]. Qed.

Lemma SFadd_top_l a b : sf_top a → sf_nonneg b → sf_top (SFadd prec emax a b).
Proof.
  intros [-> | ->]; [by left|].
  destruct b as [[]|[]| |[] m e]; unfold sf_nonneg, sf_top; simpl; intros;
    first [discriminate | by left | by right].
Qed.

Lemma SFadd_top_r a b : sf_nonneg a → sf_top b → sf_top (SFadd prec emax a b).
Proof.
  intros Ha [-> | ->].
  - left. by destruct a.
  - revert Ha.
    destruct a as [[]|[]| |[] m e]; unfold sf_nonneg, sf_top; simpl; intros;
      first [discriminate | by left | by right].
Qed.

Lemma SFsub_top a b : sf_top a → sf_top (SFsub prec emax a b).
Proof.
  intros [-> | ->]; [by left|].
  destruct b as [[]|[]| |[] m e]; unfold sf_top; simpl;
    first [by left | by right].
Qed.

(** The squared norm as a sum of squares. *)
Lemma dot_self_fold (v : vec) :
  dot v v = fold_left (λ acc x, (acc + x * x)%float) v 0%float.
Proof.
  unfold dot. generalize 0%float.
  induction v as [|x v IH]; intros acc; [done|]. simpl. apply IH.
Qed.

Lemma squares_nonneg (v : vec) (acc : float) :
  sf_nonneg (Prim2SF acc) →
  sf_nonneg (Prim2SF (fold_left (λ acc x, (acc + x * x)%float) v acc)).
Proof.
  revert acc. induction v as [|x v IH]; intros acc Hacc; [done|].
  simpl. apply IH. rewrite FloatAxioms.add_spec, FloatAxioms.mul_spec.
  apply SFadd_not_negative; [done|apply SFmul_self_nonneg].
Qed.

Lemma squares_top_acc (v : vec) (acc : float) :
  sf_top (Prim2SF acc) →
  sf_top (Prim2SF (fold_left (λ acc x, (acc + x * x)%float) v acc)).
Proof.
  revert acc. induction v as [|x v IH]; intros acc Hacc; [done|].
  simpl. apply IH. rewrite FloatAxioms.add_spec, FloatAxioms.mul_spec.
  apply SFadd_top_l; [done|apply SFmul_self_nonneg].
Qed.

Lemma squares_top (v : vec) (acc : float) :
  has_nonfinite v → sf_nonneg (Prim2SF acc) →
  sf_top (Prim2SF (fold_left (λ acc x, (acc + x * x)%float) v acc)).
Proof.
  intros Hv. revert acc.
  induction Hv as [x v Hx|x v _ IH]; intros acc Hacc; simpl.
  - apply squares_top_acc.
    rewrite FloatAxioms.add_spec, FloatAxioms.mul_spec.
    apply SFadd_top_r; [done|]. by apply SFmul_self_top, nonfinite_spec.
  - apply IH. rewrite FloatAxioms.add_spec, FloatAxioms.mul_spec.
    apply SFadd_not_negative; [done|apply SFmul_self_nonneg].
Qed.

(** A squared norm is never below zero, and it is plus infinity or a NaN
    as soon as an entry is not finite. *)
Lemma dot_self_nonneg (v : vec) : sf_nonneg (Prim2SF (dot v v)).
Proof. rewrite dot_self_fold. by apply squares_nonneg. Qed.

Lemma dot_self_top (v : vec) : has_nonfinite v → sf_top (Prim2SF (dot v v)).
Proof. intros Hv. rewrite dot_self_fold. by apply squares_top. Qed.

Lemma squaredDistance_top (dataNorm centroidNorm dotProduct m : float) :
  sf_top (Prim2SF (dataNorm + centroidNorm)) →
  (squaredDistance dataNorm centroidNorm dotProduct <? m)%float = false.
Proof.
  intros Htop. unfold squaredDistance.
  rewrite FloatAxioms.ltb_spec, FloatAxioms.sub_spec.
  by apply sf_top_ltb, SFsub_top.
Qed.

(** No distance from a point with a coordinate that is not finite, and no
    distance to such a centroid, is below anything. *)
Lemma distance_from_nonfinite km centroids i j m :
  has_nonfinite (col (dataset km) i) →
  (decomposed_distance km centroids i j <? m)%float = false.
Proof.
  intros Hx. rewrite decomposed_distance_dot. apply squaredDistance_top.
  rewrite FloatAxioms.add_spec.
  apply SFadd_top_l; [by apply dot_self_top|apply dot_self_nonneg].
Qed.

Lemma distance_to_nonfinite km centroids i j m :
  has_nonfinite (col centroids j) →
  (decomposed_distance km centroids i j <? m)%float = false.
Proof.
  intros Hc. rewrite decomposed_distance_dot. apply squaredDistance_top.
  rewrite FloatAxioms.add_spec.
  apply SFadd_top_r; [apply dot_self_nonneg|by apply dot_self_top].
Qed.

(** X6.  A dataset of at least [minVectorsPerThread] points one of which has a
    coordinate that is an infinity or a NaN makes the call index out of
    range, whatever the centroids: the point is given no cluster. *)
Theorem nonfinite_point_faults km centroids maxThreads schedule reduction i :
  minVectorsPerThread ≤ n_cols (dataset km) →
  i < n_cols (dataset km) →
  has_nonfinite (col (dataset km) i) →
  assigned km centroids i = n_cols centroids ∧
  Iterate km centroids maxThreads schedule reduction = Fault IndexOutOfBounds.
Proof.
  intros HN Hi Hx.
  assert (assigned km centroids i = n_cols centroids) as Hsent.
  { apply unassigned_iff. intros j _. by apply distance_from_nonfinite. }
  split; [done|].
  destruct (Iterate km centroids maxThreads schedule reduction)
    as [out|[]] eqn:Hout; [| |done].
  - pose proof (Iterate_assigns_all _ _ _ _ _ _ _ Hout Hi). lia.
  - apply Iterate_small_iff in Hout. lia.
Qed.

Lemma nonfinite_point_faults_witness :
  assigned (NaiveKMeans_new spoiled_dataset) line_centroids 100
  = n_cols line_centroids ∧
  Iterate (NaiveKMeans_new spoiled_dataset) line_centroids 1 [0]
          (one_thread 2)
  = Fault IndexOutOfBounds.
Proof.
  apply (nonfinite_point_faults
           (NaiveKMeans_new spoiled_dataset) line_centroids 1 [0]
           (one_thread 2) 100).
  - vm_compute. lia.
  - vm_compute. lia.
  - vm_compute. by apply Exists_cons_hd.
Defined.

(** X7.  A centroid with a coordinate that is an infinity or a NaN attracts no
    point: in a call that returns, its cluster has count zero and its new
    centroid is the zero vector. *)
Theorem nonfinite_centroid_is_emptied
    km centroids maxThreads schedule reduction out j :
  team_schedule km maxThreads schedule →
  Iterate km centroids maxThreads schedule reduction = Ok out →
  j < n_cols centroids →
  has_nonfinite (col centroids j) →
  nth j (counts out) 0 = 0 ∧
  col (newCentroids out) j = replicate (n_rows (dataset km)) 0%float.
Proof.
  intros Hsched Hout Hj Hc.
  apply (Iterate_empty_cluster _ _ _ _ _ _ _ Hsched Hout Hj).
  intros i Hi Hassigned.
  assert ((decomposed_distance km centroids i j <? DBL_MAX)%float = true)
    as Hlt.
  { rewrite <- decomposed_distance_distTo by done.
    apply closestCluster_below_max; [exact Hassigned|done]. }
  by rewrite distance_to_nonfinite in Hlt.
Qed.

Lemma nonfinite_centroid_is_emptied_witness :
  nth 1 [100; 0] 0 = 0 ∧
  col (Mat 1 [[2%float]; [0%float]]) 1
  = replicate (n_rows (dataset (NaiveKMeans_new midway_dataset))) 0%float.
Proof.
  apply (nonfinite_centroid_is_emptied
           (NaiveKMeans_new midway_dataset) spoiled_centroids 1 [0]
           (one_thread 2)
           {| newCentroids := Mat 1 [[2%float]; [0%float]];
              counts := [100; 0];
              cNorm := nan;
              kernel := count_distances (NaiveKMeans_new midway_dataset)
                                        2 100 |} 1).
  - vm_compute. apply Permutation_refl.
  - vm_compute. reflexivity.
  - vm_compute. lia.
  - vm_compute. by apply Exists_cons_hd.
Defined.

(** ** The order of the reduction *)

Lemma round_aux_unsigned m e l :
  sf_unsigned (binary_round_aux prec emax false m e l).
Proof.
  unfold binary_round_aux.
  destruct (shr_fexp prec emax m e l) as [mrs' e'].
  destruct (shr_fexp prec emax _ e' loc_Exact) as [mrs'' e''].
  destruct (shr_m mrs''); [done| |done].
  by destruct (Z.leb e'' (emax - prec)).
Qed.

Lemma round_unsigned m e : sf_unsigned (binary_round prec emax false m e).
Proof.
  unfold binary_round. destruct (shl_align m e _) as [mz ez].
  apply round_aux_unsigned.
Qed.

Lemma SFadd_unsigned x y :
  sf_unsigned x → sf_unsigned y → sf_unsigned (SFadd prec emax x y).
Proof.
  destruct x as [[]|[]| |[] mx ex], y as [[]|[]| |[] my ey];
    try done.
  intros _ _. unfold SFadd. cbn [cond_Zopp Z.add].
  apply round_unsigned.
Qed.

Lemma SFsqrt_unsigned x : sf_unsigned x → sf_unsigned (SFsqrt prec emax x).
Proof.
  destruct x as [[]|[]| |[] mx ex]; try done.
  intros _. unfold SFsqrt.
  destruct (SFsqrt_core_binary _ _ _ _) as [[mz ez] lz].
  apply round_aux_unsigned.
Qed.

Lemma SFmul_self_unsigned s : sf_unsigned (SFmul prec emax s s).
Proof.
  destruct s as [[]|[]| |[] m e]; try done;
    unfold SFmul; cbn [xorb]; apply round_aux_unsigned.
Qed.

Lemma norm2_unsigned (v : vec) : sf_unsigned (Prim2SF (norm2 v)).
Proof.
  unfold norm2. rewrite FloatAxioms.sqrt_spec, dot_self_fold.
  apply SFsqrt_unsigned.
  assert (∀ acc, sf_unsigned (Prim2SF acc) →
    sf_unsigned (Prim2SF (fold_left (λ acc x, (acc + x * x)%float) v acc)))
    as Hfold.
  { induction v as [|x v IH]; intros acc Hacc; [done|].
    simpl. apply IH. rewrite FloatAxioms.add_spec, FloatAxioms.mul_spec.
    apply SFadd_unsigned; [done|apply SFmul_self_unsigned]. }
  by apply Hfold.
Qed.

(** Zero plus a number is that number, the negative zero apart. *)
Lemma add_zero_l (x : float) :
  sf_unsigned (Prim2SF x) → (0 + x)%float = x.
Proof.
  intros Hx.
  rewrite <- (SF2Prim_Prim2SF (0 + x)), FloatAxioms.add_spec.
  change (Prim2SF 0) with (S754_zero false).
  etrans; [|apply SF2Prim_Prim2SF]. f_equal.
  by destruct (Prim2SF x) as [[]|[]| |[] m e].
Qed.

Lemma add_zero_r (x : float) :
  sf_unsigned (Prim2SF x) → (x + 0)%float = x.
Proof.
  intros Hx.
  rewrite <- (SF2Prim_Prim2SF (x + 0)), FloatAxioms.add_spec.
  change (Prim2SF 0) with (S754_zero false).
  etrans; [|apply SF2Prim_Prim2SF]. f_equal.
  by destruct (Prim2SF x) as [[]|[]| |[] m e].
Qed.

Lemma terms_unsigned centroids (newCols : list vec) js acc :
  sf_unsigned (Prim2SF acc) →
  sf_unsigned (Prim2SF (fold_left
    (λ cNorm j,
       (cNorm + norm2 (vsub (col centroids j) (nth j newCols [])))%float)
    js acc)).
Proof.
  revert acc. induction js as [|j js IH]; intros acc Hacc; [done|].
  simpl. apply IH. rewrite FloatAxioms.add_spec.
  apply SFadd_unsigned; [done|apply norm2_unsigned].
Qed.

(** A reduction has a leaf, and one with a single thread is the sum of that
    thread's copy and the value from before the loop, in either order. *)
Lemma reduction_leaf reduction : 1 ≤ threads reduction + originals reduction.
Proof. induction reduction; simpl; lia. Qed.

Lemma single_thread_shape reduction :
  threads reduction = 1 → originals reduction = 1 →
  ∃ first count,
    reduction = Combined Original (Private first count) ∨
    reduction = Combined (Private first count) Original.
Proof.
  destruct reduction as [|first count|a b]; simpl; [done..|].
  intros Ht Ho.
  pose proof (reduction_leaf a). pose proof (reduction_leaf b).
  destruct a as [|first count|a1 a2], b as [|first' count'|b1 b2];
    simpl in *; try lia; eauto.
  - pose proof (reduction_leaf b1). pose proof (reduction_leaf b2). lia.
  - pose proof (reduction_leaf b1). pose proof (reduction_leaf b2). lia.
  - pose proof (reduction_leaf a1). pose proof (reduction_leaf a2). lia.
  - pose proof (reduction_leaf a1). pose proof (reduction_leaf a2). lia.
  - pose proof (reduction_leaf a1). pose proof (reduction_leaf a2).
    pose proof (reduction_leaf b1). pose proof (reduction_leaf b2). lia.
Qed.

Lemma seq_whole first count K :
  seq first count ≡ₚ seq 0 K → seq first count = seq 0 K.
Proof.
  intros Hperm.
  pose proof (Permutation_length Hperm) as Hlen. rewrite !length_seq in Hlen.
  subst count. destruct K as [|K]; [done|].
  assert (0 ∈ seq first (S K)) as Hin.
  { rewrite Hperm. apply elem_of_seq. lia. }
  apply elem_of_seq in Hin. by replace first with 0 by lia.
Qed.

(** X17.  When one thread runs the whole loop of line 117, the value a call
    returns is the sum of the shifts of the clusters taken in index order,
    from zero. *)
Theorem Iterate_one_thread_shift
    km centroids maxThreads schedule reduction out :
  team_reduction centroids reduction →
  threads reduction = 1 →
  Iterate km centroids maxThreads schedule reduction = Ok out →
  cNorm out = total_shift (columns centroids) (columns (newCentroids out)).
Proof.
  intros [Hperm Horig] Hone Hout.
  pose proof (Iterate_newCentroids_cols _ _ _ _ _ _ Hout) as Hcols.
  rewrite (Iterate_cNorm _ _ _ _ _ _ Hout).
  unfold total_shift. rewrite shifts_terms, fold_left_fmap by done.
  destruct (single_thread_shape _ Hone Horig) as (first & count & [-> | ->]);
    cbn [iterations app] in Hperm; rewrite ?app_nil_r in Hperm;
    apply seq_whole in Hperm; cbn [distortion]; rewrite Hperm.
  - apply add_zero_l. by apply terms_unsigned.
  - apply add_zero_r. by apply terms_unsigned.
Qed.

Lemma Iterate_one_thread_shift_witness :
  4%float = total_shift (columns line_centroids) [[2%float]; [0%float]].
Proof.
  apply (Iterate_one_thread_shift
           (NaiveKMeans_new midway_dataset) line_centroids 1 [0]
           (one_thread 2)
           {| newCentroids := Mat 1 [[2%float]; [0%float]];
              counts := [100; 0];
              cNorm := 4%float;
              kernel := count_distances (NaiveKMeans_new midway_dataset)
                                        2 100 |}).
  - by split.
  - reflexivity.
  - vm_compute. reflexivity.
Defined.

(** With more threads the value can be another one: on [drift_dataset] the
    shifts of the three clusters are [2^53], 1 and 1; one thread adding
    them in order loses both ones to rounding, while three threads whose
    copies are added in the order 1, 2, 0 keep them. *)
Lemma shift_depends_on_reduction :
  team_reduction drift_centroids (one_thread 3) ∧
  team_reduction drift_centroids three_threads ∧
  shifts (columns drift_centroids) [[0%float]; [2%float]; [6%float]]
  = [0x1p+53%float; 1%float; 1%float] ∧
  ∃ out1 out2,
    Iterate (NaiveKMeans_new drift_dataset) drift_centroids 1 [0]
            (one_thread 3) = Ok out1 ∧
    Iterate (NaiveKMeans_new drift_dataset) drift_centroids 1 [0]
            three_threads = Ok out2 ∧
    newCentroids out1 = Mat 1 [[0%float]; [2%float]; [6%float]] ∧
    newCentroids out2 = newCentroids out1 ∧
    cNorm out1 = 0x1p+53%float ∧
    cNorm out2 = 9007199254740994%float.
Proof.
  split; [by split|].
  split; [split; [|done]; apply (Permutation_app_comm [1; 2] [0])|].
  split; [vm_compute; reflexivity|].
  eexists _, _. split; [vm_compute; reflexivity|].
  split; [vm_compute; reflexivity|].
  repeat split.
Qed.

(** ** Small datasets and single-threaded hosts *)

(** X15.  With fewer than twice [minVectorsPerThread] points, or when the host
    offers at most one thread, the team is a single thread and its segment
    is the whole dataset. *)
Theorem team_of_one maxThreads points :
  minVectorsPerThread ≤ points →
  points < 2 * minVectorsPerThread ∨ (maxThreads ≤ 1)%Z →
  effectiveThreads_of maxThreads points = 1 ∧
  segment_of 1 (points / 1) points 0 = seq 0 points.
Proof.
  intros HN Hone.
  pose proof (effectiveThreads_pos maxThreads points HN) as Hpos.
  split.
  - unfold effectiveThreads_of, numThreads_of in *.
    destruct Hone as [Hsmall|Hhost]; [|lia].
    assert (points / minVectorsPerThread < 2); [|lia].
    apply Nat.Div0.div_lt_upper_bound. lia.
  - rewrite (segment_of_last 1). cbn [Nat.sub Nat.mul].
    by rewrite Nat.sub_0_r.
Qed.

Lemma team_of_one_witness :
  effectiveThreads_of 16 150 = 1 ∧
  segment_of 1 (150 / 1) 150 0 = seq 0 150.
Proof.
  apply (team_of_one 16 150); [vm_compute; lia|].
  left. vm_compute. lia.
Defined.

(** ** Successive calls *)

(** X5.  The counter sums up over calls: after two calls that return, the first
    on a new kernel, it holds the number of centroid-point pairs of both,
    modulo the range of [size_t]; the dataset is still the one the kernel
    was built on. *)
Theorem two_calls_count
    data centroids1 centroids2 maxThreads schedule reduction1 reduction2
    out1 out2 :
  Iterate (NaiveKMeans_new data) centroids1 maxThreads schedule reduction1
  = Ok out1 →
  Iterate (kernel out1) centroids2 maxThreads schedule reduction2 = Ok out2 →
  dataset (kernel out2) = data ∧
  distanceCalculations (kernel out2)
  = (N.of_nat ((n_cols centroids1 + n_cols centroids2) * n_cols data)
     mod 2 ^ 64)%N.
Proof.
  intros H1 H2.
  pose proof (Iterate_kernel_dataset _ _ _ _ _ _ H1) as Hd1.
  pose proof (Iterate_kernel_dataset _ _ _ _ _ _ H2) as Hd2.
  apply Iterate_inv in H2 as (_ & _ & acc2 & _ & ->).
  apply Iterate_inv in H1 as (_ & _ & acc1 & _ & ->).
  cbn [kernel count_distances dataset distanceCalculations NaiveKMeans_new]
    in *.
  split; [done|]. unfold size_max.
  rewrite N.add_0_l, N.Div0.add_mod_idemp_l.
  f_equal. lia.
Qed.

Lemma two_calls_count_witness :
  dataset (count_distances
             (count_distances (NaiveKMeans_new line_dataset) 2 250) 2 250)
  = line_dataset ∧
  distanceCalculations
    (count_distances
       (count_distances (NaiveKMeans_new line_dataset) 2 250) 2 250)
  = (N.of_nat ((n_cols line_centroids + n_cols line_centroids)
               * n_cols line_dataset) mod 2 ^ 64)%N.
Proof.
  apply (two_calls_count line_dataset line_centroids line_centroids 2 [1; 0]
           two_threads (one_thread 2)
           {| newCentroids := line_centroids;
              counts := [150; 100];
              cNorm := 0%float;
              kernel := count_distances (NaiveKMeans_new line_dataset)
                                        2 250 |}
           {| newCentroids := line_centroids;
              counts := [150; 100];
              cNorm := 0%float;
              kernel := count_distances
                          (count_distances (NaiveKMeans_new line_dataset)
                                           2 250) 2 250 |});
    vm_compute; reflexivity.
Defined.
